(** * ExtractTagData: tag-resolution engine of the L5X tag mapper

    A shallow embedding of [extract_mappings] (ExtractTagData.py) and of the
    helpers [tag_sort_key], [split_index] and [strip_index].

    Modelling conventions.
    - Text is ASCII: a Python [str] is a [string]; the classes [\s], [\d],
      [\w] and the case folding of [re.IGNORECASE] and [str.upper] are the
      ASCII ones.
    - Python [int] is [Z]; [dict] is [gmap], [set] is [gset]; the list
      [records] is a [list MappingRecord] in append order.
    - The parsed L5X document is given as the elements and attributes that
      the code reads ([TagEl], [RungEl], [MessageParameters]); an attribute
      read with [.get] is an [option string].
    - A Python exception that ends the run is the result [None]. The
      conversions between [int] and decimal text have the limit of
      CPython 3.11 on the number of digits (4300): beyond it [int],
      [str] and the f-strings raise. *)

From Stdlib Require Import ZArith Lia Bool Ascii String.
From stdpp Require Import base option list gmap strings sorting.

Local Open Scope Z_scope.

(** ** Characters and strings *)

Module Chr.

Definition code (c : ascii) : N := N_of_ascii c.

Definition between (lo hi : N) (c : ascii) : bool :=
  ((lo <=? code c) && (code c <=? hi))%N.

(** [\d] *)
Definition is_digit : ascii → bool := between 48 57.

(** [\s], and the characters removed by [str.strip()]: tab, newline,
    vertical tab, form feed, carriage return, the four separators
    0x1c..0x1f and the space. *)
Definition is_space (c : ascii) : bool :=
  between 9 13 c || between 28 31 c || (code c =? 32)%N.

(** The white space that [int] skips around a number in ASCII text: tab,
    newline, vertical tab, form feed, carriage return and the space, and
    not the separators 0x1c..0x1f that [str.strip()] removes. *)
Definition is_int_space (c : ascii) : bool :=
  between 9 13 c || (code c =? 32)%N.

Definition is_upper : ascii → bool := between 65 90.
Definition is_lower : ascii → bool := between 97 122.

(** [\w] *)
Definition is_word (c : ascii) : bool :=
  is_upper c || is_lower c || is_digit c || (code c =? 95)%N.

Definition upper (c : ascii) : ascii :=
  if is_lower c then ascii_of_N (code c - 32) else c.

Definition lower (c : ascii) : ascii :=
  if is_upper c then ascii_of_N (code c + 32) else c.

Definition newline : ascii := "010"%char.

Definition digit_val (c : ascii) : Z := Z.of_N (code c) - 48.

Definition of_digit (d : Z) : ascii := ascii_of_N (Z.to_N (d + 48)).

End Chr.

Module Str.

Fixpoint length (s : string) : nat :=
  match s with
  | EmptyString => O
  | String _ s' => S (length s')
  end.

Fixpoint take (n : nat) (s : string) : string :=
  match n, s with
  | S n', String c s' => String c (take n' s')
  | _, _ => EmptyString
  end.

Fixpoint drop (n : nat) (s : string) : string :=
  match n, s with
  | S n', String _ s' => drop n' s'
  | _, _ => s
  end.

Fixpoint map (f : ascii → ascii) (s : string) : string :=
  match s with
  | EmptyString => EmptyString
  | String c s' => String (f c) (map f s')
  end.

Fixpoint forallb (p : ascii → bool) (s : string) : bool :=
  match s with
  | EmptyString => true
  | String c s' => p c && forallb p s'
  end.

(** [s.upper()] *)
Definition upper : string → string := map Chr.upper.

Fixpoint lstrip (s : string) : string :=
  match s with
  | String c s' => if Chr.is_space c then lstrip s' else s
  | EmptyString => EmptyString
  end.

(** [s.strip()] *)
Definition strip (s : string) : string :=
  String.rev (lstrip (String.rev (lstrip s))).

Fixpoint lstrip_of (p : ascii → bool) (s : string) : string :=
  match s with
  | String c s' => if p c then lstrip_of p s' else s
  | EmptyString => EmptyString
  end.

(** [s] without the characters of the class [p] at its two ends *)
Definition strip_of (p : ascii → bool) (s : string) : string :=
  String.rev (lstrip_of p (String.rev (lstrip_of p s))).

(** Number of characters of [s] in the class [p] *)
Fixpoint count (p : ascii → bool) (s : string) : nat :=
  match s with
  | EmptyString => O
  | String c s' => if p c then S (count p s') else count p s'
  end.

(** [c * n] *)
Fixpoint replicate (n : nat) (c : ascii) : string :=
  match n with
  | O => EmptyString
  | S n' => String c (replicate n' c)
  end.

(** [s.startswith(c)] for a one-character prefix *)
Definition startswith (c : ascii) (s : string) : bool :=
  match s with
  | String c' _ => bool_decide (c' = c)
  | EmptyString => false
  end.

(** Truthiness of a string: [bool(s)] *)
Definition truthy (s : string) : bool :=
  match s with EmptyString => false | _ => true end.

(** Length of the longest prefix whose characters all satisfy [p]. *)
Fixpoint run (p : ascii → bool) (s : string) : nat :=
  match s with
  | String c s' => if p c then S (run p s') else O
  | EmptyString => O
  end.

(** The last character of the prefix [take n s], when [n > 0]. *)
Fixpoint last_taken (n : nat) (prev : option ascii) (s : string)
  : option ascii :=
  match n, s with
  | S n', String c s' => last_taken n' (Some c) s'
  | _, _ => prev
  end.


(** [c in s] *)
Fixpoint contains (c : ascii) (s : string) : bool :=
  match s with
  | EmptyString => false
  | String a s' => bool_decide (a = c) || contains c s'
  end.

End Str.

(** [a or b] on values read with [.get]: the first one that is neither
    [None] nor the empty string. *)
Definition py_or (a b : option string) : option string :=
  match a with
  | Some s => if Str.truthy s then a else b
  | None => b
  end.

(** [a or ""] *)
Definition or_empty (a : option string) : string := default EmptyString a.

(** [not a] for a value read with [.get] *)
Definition falsy (a : option string) : bool :=
  match a with
  | Some s => negb (Str.truthy s)
  | None => true
  end.

(** ** Integers and their text *)

(** The longest decimal text that [int] and [str] convert:
    [sys.get_int_max_str_digits()], 4300 in CPython 3.11 unless it is
    set otherwise. On a text with more digits [int] raises [ValueError],
    and so do [str] and the f-strings on an integer whose text has more
    digits. The sign and the underscores are not counted, leading zeros
    are. *)
Definition int_max_str_digits : nat := 4300.

(** Whether the digits of a text are few enough for [int] *)
Definition int_ok (digits : string) : bool :=
  (Str.count Chr.is_digit digits <=? int_max_str_digits)%nat.

(** Value of a run of decimal digits, as [int] computes it on a group
    matched by [\d+] when [int_ok] holds of the group. *)
Fixpoint digits_val_from (acc : Z) (s : string) : Z :=
  match s with
  | EmptyString => acc
  | String c s' => digits_val_from (10 * acc + Chr.digit_val c) s'
  end.

Definition digits_val : string → Z := digits_val_from 0.

(** Body of an integer literal accepted by [int]: digits, with single
    underscores allowed between digits only. [after_digit] tells whether
    the previous character was a digit. *)
Fixpoint int_body (after_digit : bool) (acc : Z) (s : string) : option Z :=
  match s with
  | EmptyString => if after_digit then Some acc else None
  | String c s' =>
      if Chr.is_digit c then int_body true (10 * acc + Chr.digit_val c) s'
      else if bool_decide (c = "_"%char) && after_digit
      then match s' with
           | String d _ => if Chr.is_digit d then int_body false acc s' else None
           | EmptyString => None
           end
      else None
  end.

(** [int(s)] for a string [s]: [None] is [ValueError], for a text that
    is not an integer literal and for one with too many digits. *)
Definition py_int_str (s : string) : option Z :=
  let t := Str.strip_of Chr.is_int_space s in
  let '(negative, body) :=
    match t with
    | String "-" s' => (true, s')
    | String "+" s' => (false, s')
    | _ => (false, t)
    end in
  n ← int_body false 0 body;
  if int_ok body then Some (if negative : bool then - n else n) else None.

(** [int(v)] for a value read with [.get]: [None] is [TypeError] (on
    [None]) or [ValueError]. *)
Definition py_int (v : option string) : option Z := v ≫= py_int_str.

(** Decimal digits of a natural number, most significant first;
    [fuel] bounds the number of digits (the binary length is enough). *)
Fixpoint nat_digits (fuel : nat) (n : Z) (acc : string) : string :=
  match fuel with
  | O => acc
  | S fuel' =>
      let acc' := String (Chr.of_digit (n mod 10)) acc in
      if n / 10 =? 0 then acc' else nat_digits fuel' (n / 10) acc'
  end.

(** [str(n)], as the f-strings format an [int], where [str_ok n] holds
    (below); [str] raises elsewhere. *)
Definition py_str (n : Z) : string :=
  if n <? 0
  then String "-" (nat_digits (S (Z.to_nat (Z.log2 (- n)))) (- n) EmptyString)
  else nat_digits (S (Z.to_nat (Z.log2 n))) n EmptyString.

(** Whether [str(n)], or a field [{n}] of an f-string, can be written:
    the text of [n], sign aside, is not too long. *)
Definition str_ok (n : Z) : bool :=
  (String.length (py_str (Z.abs n)) <=? int_max_str_digits)%nat.

(** [range(n)] *)
Definition py_range (n : Z) : list Z := Z.of_nat <$> seq 0 (Z.to_nat n).

(** ** Regular expressions

    A backtracking matcher for the fragment of Python's [re] that the
    patterns of the program use. Repetition is over a character class
    only, which is all the patterns need; alternatives are tried in
    Python's order (leftmost alternative first, greedy repetition longest
    first, lazy repetition shortest first), so the first successful path
    is the match that [re] returns. *)

Module Re.

Inductive regex : Type :=
| Chr (p : ascii → bool)                       (* one character of a class *)
| Rep (greedy : bool) (min : nat) (p : ascii → bool)
                                               (* p*  p+  p*?  p+? *)
| Seq (r1 r2 : regex)
| Alt (r1 r2 : regex)                          (* r1|r2 *)
| Opt (r : regex)                              (* (?:r)? *)
| Grp (n : nat) (r : regex)                    (* capturing group n *)
| Bow                                          (* \b *)
| Bol                                          (* ^ *)
| Eol.                                         (* $ *)

(** A position of the matcher: the character before it, the text after
    it, the number of characters consumed since the start of the match
    and the groups captured so far (most recent first). *)
Record mstate : Type := MState {
  m_prev : option ascii;
  m_rest : string;
  m_pos  : nat;
  m_caps : list (nat * string)
}.

Definition start (prev : option ascii) (s : string) : mstate :=
  MState prev s 0 [].

Definition advance (n : nat) (s : mstate) : mstate :=
  MState (Str.last_taken n (m_prev s) (m_rest s)) (Str.drop n (m_rest s))
         (m_pos s + n) (m_caps s).

Definition capture (n : nat) (s0 s : mstate) : mstate :=
  MState (m_prev s) (m_rest s) (m_pos s)
         ((n, Str.take (m_pos s - m_pos s0) (m_rest s0)) :: m_caps s).

Fixpoint first_some {A B} (f : A → option B) (l : list A) : option B :=
  match l with
  | [] => None
  | x :: l' => match f x with Some y => Some y | None => first_some f l' end
  end.

Definition word_at (c : option ascii) : bool :=
  match c with Some c => Chr.is_word c | None => false end.

Definition next_char (s : string) : option ascii :=
  match s with String c _ => Some c | EmptyString => None end.

(** [rmatch r k s]: match [r] at [s] and continue with [k]; backtrack
    into [r] when [k] fails. *)
Fixpoint rmatch (r : regex) (k : mstate → option mstate) (s : mstate)
  : option mstate :=
  match r with
  | Chr p =>
      match m_rest s with
      | String c _ => if p c then k (advance 1 s) else None
      | EmptyString => None
      end
  | Rep greedy min p =>
      let most := Str.run p (m_rest s) in
      let counts := seq min (S most - min) in
      first_some (λ n, k (advance n s))
                 (if greedy then rev counts else counts)
  | Seq r1 r2 => rmatch r1 (rmatch r2 k) s
  | Alt r1 r2 =>
      match rmatch r1 k s with
      | Some s' => Some s'
      | None => rmatch r2 k s
      end
  | Opt r1 =>
      match rmatch r1 k s with
      | Some s' => Some s'
      | None => k s
      end
  | Grp n r1 => rmatch r1 (λ s', k (capture n s s')) s
  | Bow =>
      if xorb (word_at (m_prev s)) (word_at (next_char (m_rest s)))
      then k s else None
  | Bol => match m_prev s with None => k s | Some _ => None end
  | Eol =>
      if bool_decide (m_rest s = EmptyString)
         || bool_decide (m_rest s = String Chr.newline EmptyString)
      then k s else None
  end.

(** [m.group(n)]: [None] when the group did not take part. *)
Fixpoint group (n : nat) (caps : list (nat * string)) : option string :=
  match caps with
  | [] => None
  | (i, v) :: caps' => if (i =? n)%nat then Some v else group n caps'
  end.

(** [re.match(r, s)] *)
Definition re_match (r : regex) (s : string) : option (list (nat * string)) :=
  m_caps <$> rmatch r Some (start None s).

(** Scan of [s] for the successive non-overlapping matches of [r];
    [skip] characters are still part of the previous match. Each match
    is given with the number of characters it consumed. The patterns of
    the program never match the empty string. *)
Fixpoint scan (r : regex) (skip : nat) (prev : option ascii) (s : string)
  : list (nat * list (nat * string)) :=
  match skip with
  | S skip' =>
      match s with
      | String c s' => scan r skip' (Some c) s'
      | EmptyString => []
      end
  | O =>
      match rmatch r Some (start prev s) with
      | Some m =>
          (m_pos m, m_caps m) ::
          match s with
          | String c s' => scan r (pred (m_pos m)) (Some c) s'
          | EmptyString => []
          end
      | None =>
          match s with
          | String c s' => scan r 0 (Some c) s'
          | EmptyString => []
          end
      end
  end.

(** The matches that [r.findall(s)] and [r.finditer(s)] go through, each
    as its captured groups. *)
Definition matches (r : regex) (s : string) : list (list (nat * string)) :=
  snd <$> scan r 0 None s.

(** An element of a [findall] tuple: group [n], the empty string when
    the group did not take part. *)
Definition grp (n : nat) (m : list (nat * string)) : string :=
  default EmptyString (group n m).

(** [r.search(s)]: the leftmost match. *)
Definition search (r : regex) (s : string) : option (list (nat * string)) :=
  snd <$> head (scan r 0 None s).

(** [re.sub(r, "", s)]: [s] without the matches of [r]. *)
Fixpoint remove (r : regex) (skip : nat) (prev : option ascii) (s : string)
  : string :=
  match skip with
  | S skip' =>
      match s with
      | String c s' => remove r skip' (Some c) s'
      | EmptyString => EmptyString
      end
  | O =>
      match rmatch r Some (start prev s) with
      | Some m =>
          match m_pos m, s with
          | S n, String c s' => remove r n (Some c) s'
          | O, String c s' => String c (remove r 0 (Some c) s')
          | _, EmptyString => EmptyString
          end
      | None =>
          match s with
          | String c s' => String c (remove r 0 (Some c) s')
          | EmptyString => EmptyString
          end
      end
  end.

Definition sub_empty (r : regex) (s : string) : string := remove r 0 None s.

(** The relation between the positions before and after one way of
    matching [r]; it is what a successful [rmatch] went through. *)
Fixpoint path (r : regex) (s s' : mstate) : Prop :=
  match r with
  | Chr p =>
      ∃ c rest, m_rest s = String c rest ∧ p c = true ∧ s' = advance 1 s
  | Rep _ min p =>
      ∃ n, (min ≤ n ≤ Str.run p (m_rest s))%nat ∧ s' = advance n s
  | Seq r1 r2 => ∃ s1, path r1 s s1 ∧ path r2 s1 s'
  | Alt r1 r2 => path r1 s s' ∨ path r2 s s'
  | Opt r1 => path r1 s s' ∨ s' = s
  | Grp n r1 => ∃ s1, path r1 s s1 ∧ s' = capture n s s1
  | Bow =>
      xorb (word_at (m_prev s)) (word_at (next_char (m_rest s))) = true
      ∧ s' = s
  | Bol => m_prev s = None ∧ s' = s
  | Eol =>
      (m_rest s = EmptyString ∨ m_rest s = String Chr.newline EmptyString)
      ∧ s' = s
  end.

(** Whether [r] has a capturing group numbered [n]. *)
Fixpoint binds (n : nat) (r : regex) : bool :=
  match r with
  | Seq r1 r2 | Alt r1 r2 => binds n r1 || binds n r2
  | Opt r1 => binds n r1
  | Grp i r1 => (i =? n)%nat || binds n r1
  | _ => false
  end.

(** Classes and literals *)
Definition lit (c : ascii) : regex := Chr (λ x, bool_decide (x = c)).
Definition ilit (c : ascii) : regex :=
  Chr (λ x, bool_decide (Chr.lower x = Chr.lower c)).
Definition dot (c : ascii) : bool := negb (bool_decide (c = Chr.newline)).
Definition space_star : regex := Rep true 0 Chr.is_space.
Definition digits1 : regex := Rep true 1 Chr.is_digit.

Fixpoint iword (s : string) : regex :=
  match s with
  | EmptyString => Rep true 0 (λ _, false)
  | String c EmptyString => ilit c
  | String c s' => Seq (ilit c) (iword s')
  end.

End Re.

Infix "⋅" := Re.Seq (at level 41, right associativity).

(** ** Natural sort helpers *)

(** [_tag_pat = ^(.*?)(?:\[(\d+)\])?(?:\.(\d+))?$] *)
Definition _tag_pat : Re.regex :=
  Re.Bol ⋅ Re.Grp 1 (Re.Rep false 0 Re.dot)
         ⋅ Re.Opt (Re.lit "[" ⋅ Re.Grp 2 Re.digits1 ⋅ Re.lit "]")
         ⋅ Re.Opt (Re.lit "." ⋅ Re.Grp 3 Re.digits1)
         ⋅ Re.Eol.

(** Whether [int(m.group(n))] returns, where the group took part in the
    match *)
Definition group_ok (n : nat) (m : list (nat * string)) : bool :=
  match Re.group n m with
  | Some d => int_ok d
  | None => true
  end.

(** The index or bit of a key: [int(m.group(n))] where [group_ok n m]
    holds, or -1 without the group *)
Definition group_int (n : nat) (m : list (nat * string)) : Z :=
  match Re.group n m with
  | Some d => digits_val d
  | None => -1
  end.

(** The key of a tag; the call raises where [tag_sort_key_ok] below is
    false. *)
Definition tag_sort_key (tag : string) : string * Z * Z :=
  match Re.re_match _tag_pat tag with
  | Some m => (or_empty (Re.group 1 m), group_int 2 m, group_int 3 m)
  | None => (tag, -1, -1)
  end.

(** Whether [tag_sort_key(tag)] returns: its two conversions do not
    raise. *)
Definition tag_sort_key_ok (tag : string) : bool :=
  match Re.re_match _tag_pat tag with
  | Some m => group_ok 2 m && group_ok 3 m
  | None => true
  end.

(** [^(.+?)\[(\d+)\]$] *)
Definition index_pat : Re.regex :=
  Re.Bol ⋅ Re.Grp 1 (Re.Rep false 1 Re.dot)
         ⋅ Re.lit "[" ⋅ Re.Grp 2 Re.digits1 ⋅ Re.lit "]" ⋅ Re.Eol.

(** Return [(base, idx)] where [idx] defaults to 0 if absent. The call
    raises where [split_index_ok] below is false. *)
Definition split_index (tag : string) : string * Z :=
  match Re.re_match index_pat tag with
  | Some m => (or_empty (Re.group 1 m), group_int 2 m)
  | None => (tag, 0)
  end.

(** Whether [split_index(tag)] returns: [int(m.group(2))] does not
    raise. *)
Definition split_index_ok (tag : string) : bool :=
  match Re.re_match index_pat tag with
  | Some m => group_ok 2 m
  | None => true
  end.

(** Return base name with any [[idx]] removed:
    [re.sub(r'\[\d+\]$', '', tag)]. *)
Definition strip_index (tag : string) : string :=
  Re.sub_empty (Re.lit "[" ⋅ Re.digits1 ⋅ Re.lit "]" ⋅ Re.Eol) tag.

(** ** The instruction patterns *)

(** [[^,\s\)]+] *)
Definition operand_chr (c : ascii) : bool :=
  negb (bool_decide (c = ","%char) || Chr.is_space c
        || bool_decide (c = ")"%char)).

Definition operand1 : Re.regex := Re.Rep true 1 operand_chr.

Definition comma : Re.regex := Re.space_star ⋅ Re.lit "," ⋅ Re.space_star.

(** [\b(COP|CPS)\s*\(\s*([^,\s\)]+)\s*,\s*([^,\s\)]+)\s*,\s*(\d+)\s*\)],
    case-insensitive *)
Definition cop_re : Re.regex :=
  Re.Bow ⋅ Re.Grp 1 (Re.Alt (Re.iword "COP") (Re.iword "CPS"))
         ⋅ Re.space_star ⋅ Re.lit "(" ⋅ Re.space_star
         ⋅ Re.Grp 2 operand1 ⋅ comma
         ⋅ Re.Grp 3 operand1 ⋅ comma
         ⋅ Re.Grp 4 Re.digits1 ⋅ Re.space_star ⋅ Re.lit ")".

(** [\bMOV\s*\(\s*([^,\s\)]+)\s*,\s*([^,\s\)]+)\s*\)], case-insensitive *)
Definition mov_re : Re.regex :=
  Re.Bow ⋅ Re.iword "MOV"
         ⋅ Re.space_star ⋅ Re.lit "(" ⋅ Re.space_star
         ⋅ Re.Grp 1 operand1 ⋅ comma
         ⋅ Re.Grp 2 operand1 ⋅ Re.space_star ⋅ Re.lit ")".

(** [\bFFL\s*\(\s*([^,\s\)]+)\s*,\s*([^,\s\)]+)\s*,\s*([^,\s\)]+)],
    case-insensitive *)
Definition ffl_re : Re.regex :=
  Re.Bow ⋅ Re.iword "FFL"
         ⋅ Re.space_star ⋅ Re.lit "(" ⋅ Re.space_star
         ⋅ Re.Grp 1 operand1 ⋅ comma
         ⋅ Re.Grp 2 operand1 ⋅ comma
         ⋅ Re.Grp 3 operand1.

(** [\bOTE\s*\(\s*([^\s\)]+)\s*\)], case-insensitive *)
Definition ote_text_re : Re.regex :=
  Re.Bow ⋅ Re.iword "OTE"
         ⋅ Re.space_star ⋅ Re.lit "(" ⋅ Re.space_star
         ⋅ Re.Grp 1 (Re.Rep true 1
                       (λ c, negb (Chr.is_space c || bool_decide (c = ")"%char))))
         ⋅ Re.space_star ⋅ Re.lit ")".

(** ** The data model *)

(** A [Description] or [Comment] element: its [Text] attribute and its
    text content. *)
Record TextEl : Type := {
  attr_Text : option string;
  el_text   : option string
}.

(** [(el.get("Text") or el.text or "").strip()] *)
Definition text_of (e : TextEl) : string :=
  Str.strip (or_empty (py_or (attr_Text e) (el_text e))).

Record CommentEl : Type := {
  com_Operand : option string;
  com_body    : TextEl
}.

(** A [Tag] element: the attributes [Name] and [DataType], the first
    [Description] child, the [Comment] children of the first [Comments]
    child, and the [Value] attribute of the first [DataValueMember]
    descendant named [LEN]. *)
Record TagEl : Type := {
  tag_Name        : option string;
  tag_DataType    : option string;
  tag_Description : option TextEl;
  tag_Comments    : option (list CommentEl);
  tag_LEN         : option (option string)
}.

(** An element of a rung that has an [Operand] attribute, with its first
    [Comment] child. *)
Record OperandEl : Type := {
  op_Operand : string;
  op_Comment : option TextEl
}.

Record MessageParameters : Type := {
  LocalElement    : option string;
  RequestedLength : option string;
  LocalIndex      : option string;
  RemoteElement   : option string
}.

(** A [Rung] element. [rung_context] holds the [Name] of the fourth
    ancestor (the program) and of the second ancestor (the routine); it is
    [None] when the rung has fewer than four ancestors, where the chain of
    [getparent()] calls raises. *)
Record RungEl : Type := {
  rung_context  : option (option string * option string);
  rung_Number   : option string;
  rung_Text     : option string;
  rung_operands : list OperandEl;
  rung_messages : list MessageParameters
}.

Record Document : Type := {
  doc_tags  : list TagEl;       (* root.findall(".//Tag") *)
  doc_rungs : list RungEl       (* root.findall(".//Rung") *)
}.

(** One row of the output table. [Program], [Routine] and [Rung] are
    attribute values, [None] when the attribute is missing. *)
Record MappingRecord : Type := {
  Col45       : string;
  Description : string;
  DataType    : string;
  Program     : option string;
  Routine     : option string;
  Rung        : option string;
  Instruction : string;
  Source      : string
}.

Global Instance MappingRecord_eq_dec : EqDecision MappingRecord.
Proof. solve_decision. Defined.

(** [(prog_name, rout_name, rung_num)] *)
Definition Context : Type := option string * option string * option string.

(** ** Step 3: the lookup tables *)

Record Index : Type := {
  dtype_map       : gmap string string;
  base_desc_map   : gmap string string;
  bit_comment_map : gmap string string;
  control_len_map : gmap string Z
}.

Definition index_empty : Index :=
  {| dtype_map := ∅; base_desc_map := ∅; bit_comment_map := ∅;
     control_len_map := ∅ |}.

Definition add_comment (base_name : string) (m : gmap string string)
  (c : CommentEl) : gmap string string :=
  let operand := Str.strip (or_empty (com_Operand c)) in
  if negb (Str.truthy operand) then m
  else
    let text := text_of (com_body c) in
    if negb (Str.truthy text) then m
    else
      let key := if Str.startswith "[" operand
                 then (base_name +:+ operand) else operand in
      <[key := text]> m.

(** The body of the loop over the [Tag] elements. *)
Definition index_tag (ix : Index) (t : TagEl) : Index :=
  match tag_Name t with
  | None => ix
  | Some base_name =>
      if negb (Str.truthy base_name) then ix
      else
        let dt := Str.upper (or_empty (tag_DataType t)) in
        let dtypes :=
          if Str.truthy dt then <[base_name := dt]> (dtype_map ix)
          else dtype_map ix in
        let descs :=
          match tag_Description t with
          | Some desc_el =>
              let base_desc := text_of desc_el in
              if Str.truthy base_desc
              then <[base_name := base_desc]> (base_desc_map ix)
              else base_desc_map ix
          | None => base_desc_map ix
          end in
        let comments :=
          match tag_Comments t with
          | Some cs => foldl (add_comment base_name) (bit_comment_map ix) cs
          | None => bit_comment_map ix
          end in
        let lens :=
          if bool_decide (dt = "CONTROL")
          then match tag_LEN t with
               | Some val =>
                   match py_int val with
                   | Some n => <[base_name := n]> (control_len_map ix)
                   | None => control_len_map ix
                   end
               | None => control_len_map ix
               end
          else control_len_map ix in
        {| dtype_map := dtypes; base_desc_map := descs;
           bit_comment_map := comments; control_len_map := lens |}
  end.

Definition build_index (tags : list TagEl) : Index :=
  foldl index_tag index_empty tags.

(** [m.get(k, "")] *)
Definition get_or_empty (m : gmap string string) (k : string) : string :=
  default EmptyString (m !! k).

(** ** Step 5: the rung scanner *)

(** The variables that the scan, the bit sweep and the "Not Found" pass
    update. [bit_comments] is [bit_comment_map], which the rungs extend. *)
Record State : Type := {
  records             : list MappingRecord;
  found_original_tags : gset string;
  ote_map             : gmap string (list Context);
  bit_comments        : gmap string string
}.

Definition init_state (ix : Index) : State :=
  {| records := []; found_original_tags := ∅; ote_map := ∅;
     bit_comments := bit_comment_map ix |}.

(** [records.append(r)] *)
Definition append_record (r : MappingRecord) (st : State) : State :=
  {| records := records st ++ [r];
     found_original_tags := found_original_tags st;
     ote_map := ote_map st; bit_comments := bit_comments st |}.

(** [found_original_tags.add(t)] *)
Definition mark_found (t : string) (st : State) : State :=
  {| records := records st;
     found_original_tags := found_original_tags st ∪ {[t]};
     ote_map := ote_map st; bit_comments := bit_comments st |}.

(** [records.append(r); found_original_tags.add(r["Col45"])] *)
Definition emit (r : MappingRecord) (st : State) : State :=
  mark_found (Col45 r) (append_record r st).

Definition row (dst descr dt : string) (ctx : Context) (instr src : string)
  : MappingRecord :=
  {| Col45 := dst; Description := descr; DataType := dt;
     Program := ctx.1.1; Routine := ctx.1.2; Rung := ctx.2;
     Instruction := instr; Source := src |}.

(** [f"{base}[{i}]"] *)
Definition index_name (base : string) (i : Z) : string :=
  base +:+ "[" +:+ py_str i +:+ "]".

(** [f"{base}[{idx}].{bit}"] *)
Definition bit_name (base : string) (idx bit : Z) : string :=
  base +:+ "[" +:+ py_str idx +:+ "]." +:+ py_str bit.

(** [ote_map.setdefault(operand, []).append(ctx)] for an operand of the
    rung text *)
Definition ote_step (ctx : Context) (st : State) (m : list (nat * string))
  : State :=
  let operand := Str.strip (Re.grp 1 m) in
  if Str.truthy operand
  then {| records := records st;
          found_original_tags := found_original_tags st;
          ote_map := <[operand := default [] (ote_map st !! operand) ++ [ctx]]>
                       (ote_map st);
          bit_comments := bit_comments st |}
  else st.

(** A rung-level comment is kept only where the tag level has none. *)
Definition comment_step (st : State) (elem : OperandEl) : State :=
  let operand := Str.strip (op_Operand elem) in
  if negb (Str.truthy operand) then st
  else match op_Comment elem with
       | None => st
       | Some com =>
           let ctext := text_of com in
           if Str.truthy ctext
              && bool_decide (bit_comments st !! operand = None)
           then {| records := records st;
                   found_original_tags := found_original_tags st;
                   ote_map := ote_map st;
                   bit_comments := <[operand := ctext]> (bit_comments st) |}
           else st
       end.

Section scan.

Variable ix : Index.
Variable dest_tags_set : gset string.
Variable ctx : Context.

(** COP/CPS (expand by length). [length_s] was matched by [\d+], so
    [int(length_s)] is the value of its digits. The steps of this
    section give the state where no conversion raises; [cop_ok],
    [mov_ok], [ffl_ok] and [msg_ok] below tell whether one does. *)
Definition cop_step (st : State) (m : list (nat * string)) : State :=
  let instr := Re.grp 1 m in
  let src_full := Re.grp 2 m in
  let dst_full := Re.grp 3 m in
  let length_s := Re.grp 4 m in
  let length := digits_val length_s in
  let '(src_base, src_i0) := split_index src_full in
  let '(dst_base, dst_i0) := split_index dst_full in
  let dt := get_or_empty (dtype_map ix) dst_base in
  let base_desc := get_or_empty (base_desc_map ix) dst_base in
  foldl (λ st k,
           let dst_k := index_name dst_base (dst_i0 + k) in
           if decide (dst_k ∈ dest_tags_set)
           then let src_k := index_name src_base (src_i0 + k) in
                emit (row dst_k base_desc dt ctx (Str.upper instr) src_k) st
           else st)
        st (py_range length).

(** MOV (no length) *)
Definition mov_step (st : State) (m : list (nat * string)) : State :=
  let src_full := Re.grp 1 m in
  let dst_full := Re.grp 2 m in
  if decide (dst_full ∈ dest_tags_set)
  then let '(dst_base, _) := split_index dst_full in
       let dt := get_or_empty (dtype_map ix) dst_base in
       let base_desc := get_or_empty (base_desc_map ix) dst_base in
       emit (row dst_full base_desc dt ctx "MOV" src_full) st
  else st.

(** FFL: expand destination using LEN from control tag *)
Definition ffl_step (st : State) (m : list (nat * string)) : State :=
  let src_full := Re.grp 1 m in
  let dst_full := Re.grp 2 m in
  let ctl_full := Re.grp 3 m in
  let ctl_base := strip_index ctl_full in
  match control_len_map ix !! ctl_base with
  | None => st                                 (* can't expand without LEN *)
  | Some ffl_len =>
      if ffl_len =? 0 then st
      else
        let '(dst_base, dst_i0) := split_index dst_full in
        let dt := get_or_empty (dtype_map ix) dst_base in
        let base_desc := get_or_empty (base_desc_map ix) dst_base in
        foldl (λ st k,
                 let dst_k := index_name dst_base (dst_i0 + k) in
                 if decide (dst_k ∈ dest_tags_set)
                 then (* Source is typically scalar; keep as-is *)
                      emit (row dst_k base_desc dt ctx "FFL" src_full) st
                 else st)
              st (py_range ffl_len)
  end.

(** MessageParameters (length via RequestedLength). [None] when one of
    the two [int] conversions raises. *)
Definition msg_step (st : State) (mp : MessageParameters) : option State :=
  let local_elem := LocalElement mp in
  let req_len := RequestedLength mp in
  let local_index_s := Some (default "0" (LocalIndex mp)) in
  let remote_elem := RemoteElement mp in
  if falsy local_elem || falsy req_len then Some st
  else
    length ← py_int req_len;
    local_index ← py_int local_index_s;
    let local_elem := or_empty local_elem in
    let '(dst_base, dst_i0) :=
      match Re.re_match index_pat local_elem with
      | Some m => (Re.grp 1 m, group_int 2 m)
      | None => (local_elem, local_index)
      end in
    let dt := get_or_empty (dtype_map ix) dst_base in
    let base_desc := get_or_empty (base_desc_map ix) dst_base in
    let '(src_base, src_i0) :=
      match Re.re_match index_pat (or_empty remote_elem) with
      | Some m2 => (Re.grp 1 m2, group_int 2 m2)
      | None => (or_empty remote_elem, local_index)
      end in
    Some (foldl (λ st k,
                   let dst_k := index_name dst_base (dst_i0 + k) in
                   if decide (dst_k ∈ dest_tags_set)
                   then let src_k := index_name src_base (src_i0 + k) in
                        emit (row dst_k base_desc dt ctx "MESSAGE" src_k) st
                   else st)
                st (py_range length)).

End scan.

(** A loop whose body may raise. *)
Fixpoint foldl_opt {A B} (f : A → B → option A) (a : A) (l : list B)
  : option A :=
  match l with
  | [] => Some a
  | x :: l' => a' ← f a x; foldl_opt f a' l'
  end.

(** The body of the loop over the [Rung] elements. *)
Definition scan_rung (ix : Index) (dest_tags_set : gset string)
  (st : State) (rung : RungEl) : option State :=
  '(prog_name, rout_name) ← rung_context rung;
  let ctx : Context := (prog_name, rout_name, rung_Number rung) in
  let txt := or_empty (rung_Text rung) in
  let st := foldl (ote_step ctx) st (Re.matches ote_text_re txt) in
  let st := foldl comment_step st (rung_operands rung) in
  let st := foldl (cop_step ix dest_tags_set ctx) st (Re.matches cop_re txt) in
  let st := foldl (mov_step ix dest_tags_set ctx) st (Re.matches mov_re txt) in
  let st := foldl (ffl_step ix dest_tags_set ctx) st (Re.matches ffl_re txt) in
  foldl_opt (msg_step ix dest_tags_set ctx) st (rung_messages rung).

Definition scan_rungs (ix : Index) (dest_tags_set : gset string)
  (rungs : list RungEl) : option State :=
  foldl_opt (scan_rung ix dest_tags_set) (init_state ix) rungs.

(** ** Sorting *)

(** A stable sort, as [sorted] and [sort_values] are: [x] goes before the
    first element that is not smaller. *)
Fixpoint insert_sorted {A} (leb : A → A → bool) (x : A) (l : list A) : list A :=
  match l with
  | [] => [x]
  | y :: l' => if leb x y then x :: l else y :: insert_sorted leb x l'
  end.

Definition stable_sort {A} (leb : A → A → bool) (l : list A) : list A :=
  foldr (insert_sorted leb) [] l.

(** Order of the pairs [(idx, bit)] *)
Definition idx_bit_leb (i1 b1 i2 b2 : Z) : bool :=
  (i1 <? i2) || ((i1 =? i2) && (b1 <=? b2)).

(** Order of the tuples [(base, idx, bit)] that [tag_sort_key] returns *)
Definition tuple_leb (k1 k2 : string * Z * Z) : bool :=
  match String.compare k1.1.1 k2.1.1 with
  | Lt => true
  | Gt => false
  | Eq => idx_bit_leb k1.1.2 k1.2 k2.1.2 k2.2
  end.

(** ** Step 6: bitwise OTE sweep *)

Section sweep.

Variable ix : Index.

(** The body of the loop over the bits of one tag; [acc] is the state
    and the flag [emitted]. *)
Definition sweep_bit (base : string) (idx : Z) (base_desc dt : string)
  (acc : State * bool) (bit : Z) : State * bool :=
  let st := acc.1 in
  let operand := bit_name base idx bit in
  match ote_map st !! operand with
  | Some (c :: _) =>
      let descr := default base_desc (bit_comments st !! operand) in
      (append_record (row operand descr dt c "OTE" "") st, true)
  | _ => acc                                   (* only add bits with OTE *)
  end.

Definition sweep_tag (st : State) (orig : string) : State :=
  if decide (orig ∈ found_original_tags st) then st
  else
    let '(base, idx) := split_index orig in
    let dt := get_or_empty (dtype_map ix) base in
    if negb (bool_decide (dt = "INT") || bool_decide (dt = "DINT")) then st
    else
      let max_bit := if bool_decide (dt = "INT") then 15 else 31 in
      let base_desc := get_or_empty (base_desc_map ix) base in
      let '(st', emitted) :=
        foldl (sweep_bit base idx base_desc dt) (st, false)
              (py_range (max_bit + 1)) in
      if emitted then mark_found orig st' else st'.

(** ** Step 7: "Not Found" rows for anything never matched *)

Definition not_found_step (st : State) (tag : string) : State :=
  if decide (tag ∈ found_original_tags st) then st
  else
    let '(base, _) := split_index tag in
    let dt := get_or_empty (dtype_map ix) base in
    let base_desc := get_or_empty (base_desc_map ix) base in
    append_record
      (row tag base_desc dt (Some "", Some "", Some "") "Not Found" "") st.

End sweep.

(** ** Step 8: de-dup and natural sort *)

(** [drop_duplicates()]: the first of equal rows is kept. *)
Fixpoint drop_dups_from (seen rows : list MappingRecord) : list MappingRecord :=
  match rows with
  | [] => []
  | r :: rows' =>
      if decide (r ∈ seen) then drop_dups_from seen rows'
      else r :: drop_dups_from (r :: seen) rows'
  end.

Definition drop_duplicates : list MappingRecord → list MappingRecord :=
  drop_dups_from [].

(** The columns [__base], [__idx], [__bit] of a row: the groups that
    [str.extract] finds in [Col45]; [__base] is [None] (NaN) when the
    pattern does not match. *)
Definition frame_key (dst : string) : option string * Z * Z :=
  match Re.search _tag_pat dst with
  | Some m => (Some (Re.grp 1 m), group_int 2 m, group_int 3 m)
  | None => (None, -1, -1)
  end.

(** Ascending order of [sort_values] on the three columns, NaN last. *)
Definition frame_leb (k1 k2 : option string * Z * Z) : bool :=
  match k1.1.1, k2.1.1 with
  | Some b1, Some b2 =>
      match String.compare b1 b2 with
      | Lt => true
      | Gt => false
      | Eq => idx_bit_leb k1.1.2 k1.2 k2.1.2 k2.2
      end
  | Some _, None => true
  | None, Some _ => false
  | None, None => idx_bit_leb k1.1.2 k1.2 k2.1.2 k2.2
  end.

Definition row_leb (r1 r2 : MappingRecord) : bool :=
  frame_leb (frame_key (Col45 r1)) (frame_key (Col45 r2)).

(** [astype(int)] raises on a value above [int_max], the largest value of
    the integer type of the platform. *)
Definition fits (int_max : Z) (r : MappingRecord) : bool :=
  let k := frame_key (Col45 r) in
  (k.1.2 <=? int_max) && (k.2 <=? int_max).

Definition consolidate (int_max : Z) (rows : list MappingRecord)
  : option (list MappingRecord) :=
  let df_out := drop_duplicates rows in
  if forallb (fits int_max) df_out
  then Some (stable_sort row_leb df_out)
  else None.

(** ** Conversions that raise

    [int] on a group of more than [int_max_str_digits] digits and an
    f-string on an integer with more digits raise [ValueError]; the
    code catches it nowhere but at the LEN of a CONTROL tag, so the run
    ends. The functions below follow the code and tell whether the
    conversions of a step all return. *)

Section conversions.

Variable ix : Index.
Variable dest_tags_set : gset string.

(** The f-strings of a loop [for k in range(n)]: [dst_k] is written for
    every [k]; [src_k], in the loops that write one from the first index
    [src_i0], for the monitored [dst_k] only. *)
Definition expand_ok (dst_base : string) (dst_i0 : Z) (src_i0 : option Z)
  (n : Z) : bool :=
  forallb (λ k,
             str_ok (dst_i0 + k)
             && (if decide (index_name dst_base (dst_i0 + k) ∈ dest_tags_set)
                 then match src_i0 with
                      | Some a => str_ok (a + k)
                      | None => true
                      end
                 else true))
          (py_range n).

(** [int(length_s)], the two calls of [split_index] and the loop of a
    COP or CPS *)
Definition cop_ok (m : list (nat * string)) : bool :=
  let src_full := Re.grp 2 m in
  let dst_full := Re.grp 3 m in
  let length_s := Re.grp 4 m in
  int_ok length_s && split_index_ok src_full && split_index_ok dst_full
  && expand_ok (split_index dst_full).1 (split_index dst_full).2
               (Some (split_index src_full).2) (digits_val length_s).

(** [split_index(dst_full)] of a MOV, called for a monitored destination *)
Definition mov_ok (m : list (nat * string)) : bool :=
  let dst_full := Re.grp 2 m in
  if decide (dst_full ∈ dest_tags_set) then split_index_ok dst_full else true.

(** [split_index(dst_full)] and the loop of an FFL whose length is known *)
Definition ffl_ok (m : list (nat * string)) : bool :=
  let dst_full := Re.grp 2 m in
  let ctl_full := Re.grp 3 m in
  match control_len_map ix !! strip_index ctl_full with
  | None => true
  | Some ffl_len =>
      if ffl_len =? 0 then true
      else split_index_ok dst_full
           && expand_ok (split_index dst_full).1 (split_index dst_full).2
                        None ffl_len
  end.

(** The two [int(m.group(2))] and the loop of a message element; the
    conversions of [RequestedLength] and [LocalIndex] are in [msg_step]. *)
Definition msg_ok (mp : MessageParameters) : bool :=
  if falsy (LocalElement mp) || falsy (RequestedLength mp) then true
  else
    match py_int (RequestedLength mp),
          py_int (Some (default "0" (LocalIndex mp))) with
    | Some length, Some local_index =>
        let local_elem := or_empty (LocalElement mp) in
        let remote_elem := or_empty (RemoteElement mp) in
        let '(dst_base, dst_i0) :=
          match Re.re_match index_pat local_elem with
          | Some m => (Re.grp 1 m, group_int 2 m)
          | None => (local_elem, local_index)
          end in
        let src_i0 :=
          match Re.re_match index_pat remote_elem with
          | Some m2 => group_int 2 m2
          | None => local_index
          end in
        split_index_ok local_elem && split_index_ok remote_elem
        && expand_ok dst_base dst_i0 (Some src_i0) length
    | _, _ => true
    end.

(** The conversions of the scan of one rung *)
Definition rung_ok (rung : RungEl) : bool :=
  let txt := or_empty (rung_Text rung) in
  forallb cop_ok (Re.matches cop_re txt)
  && forallb mov_ok (Re.matches mov_re txt)
  && forallb ffl_ok (Re.matches ffl_re txt)
  && forallb msg_ok (rung_messages rung).

(** Steps 6 and 7 on a tag that the scan left unmatched:
    [split_index(orig)] and, for an INT or a DINT, [{idx}] in the names
    of the bits. *)
Definition unmatched_ok (st : State) (orig : string) : bool :=
  if decide (orig ∈ found_original_tags st) then true
  else
    let '(base, idx) := split_index orig in
    let dt := get_or_empty (dtype_map ix) base in
    split_index_ok orig
    && (if bool_decide (dt = "INT") || bool_decide (dt = "DINT")
        then str_ok idx else true).

End conversions.

(** ** The run *)

Definition tag_leb (t1 t2 : string) : bool :=
  tuple_leb (tag_sort_key t1) (tag_sort_key t2).

(** Steps 1 and 3 to 7: the rows in the order in which they are
    appended. The run ends with [None] where [sorted] raises in
    [tag_sort_key], where a conversion of the scan raises, where a rung
    lacks an ancestor or a message length does not convert (in
    [scan_rungs]), and where the sweep raises. *)
Definition collect (dest_tags_set : gset string) (doc : Document)
  : option (list MappingRecord) :=
  if negb (forallb tag_sort_key_ok (elements dest_tags_set)) then None
  else
    let tags_sorted := stable_sort tag_leb (elements dest_tags_set) in
    let ix := build_index (doc_tags doc) in
    if negb (forallb (rung_ok ix dest_tags_set) (doc_rungs doc)) then None
    else
      st ← scan_rungs ix dest_tags_set (doc_rungs doc);
      if negb (forallb (unmatched_ok ix st) tags_sorted) then None
      else
        let st := foldl (sweep_tag ix) st tags_sorted in
        let st := foldl (not_found_step ix) st tags_sorted in
        Some (records st).

(** [extract_mappings], from the column [Col45] of the tag export and the
    parsed document to the table that is written out. *)
Definition extract_mappings (int_max : Z) (col45 : list string)
  (doc : Document) : option (list MappingRecord) :=
  let dest_tags_set : gset string := list_to_set col45 in
  rows ← collect dest_tags_set doc;
  consolidate int_max rows.

Definition int64_max : Z := 2 ^ 63 - 1.

(** ** The rows of each instruction, as lists

    The loops of the scanner append to [records] and add to
    [found_original_tags] together; [emit_all] is the effect of a whole
    loop, and the [_rows] functions give the rows that one occurrence of
    an instruction contributes. *)

Definition emit_all (rows : list MappingRecord) (st : State) : State :=
  {| records := records st ++ rows;
     found_original_tags :=
       found_original_tags st ∪ list_to_set (Col45 <$> rows);
     ote_map := ote_map st; bit_comments := bit_comments st |}.

(** The rows of a loop [for k in range(n)] that emits [mk k] when the
    destination [dst k] is monitored. *)
Definition expand_rows (dest_tags_set : gset string) (dst : Z → string)
  (mk : Z → MappingRecord) (n : Z) : list MappingRecord :=
  omap (λ k, if decide (dst k ∈ dest_tags_set) then Some (mk k) else None)
       (py_range n).

Section rows.

Variable ix : Index.
Variable dest_tags_set : gset string.
Variable ctx : Context.

Definition cop_rows (m : list (nat * string)) : list MappingRecord :=
  let src := split_index (Re.grp 2 m) in
  let dst := split_index (Re.grp 3 m) in
  expand_rows dest_tags_set (λ k, index_name dst.1 (dst.2 + k))
    (λ k, row (index_name dst.1 (dst.2 + k))
              (get_or_empty (base_desc_map ix) dst.1)
              (get_or_empty (dtype_map ix) dst.1) ctx
              (Str.upper (Re.grp 1 m)) (index_name src.1 (src.2 + k)))
    (digits_val (Re.grp 4 m)).

Definition mov_rows (m : list (nat * string)) : list MappingRecord :=
  let dst_full := Re.grp 2 m in
  if decide (dst_full ∈ dest_tags_set)
  then [row dst_full
            (get_or_empty (base_desc_map ix) (split_index dst_full).1)
            (get_or_empty (dtype_map ix) (split_index dst_full).1) ctx
            "MOV" (Re.grp 1 m)]
  else [].

Definition ffl_rows (m : list (nat * string)) : list MappingRecord :=
  let dst := split_index (Re.grp 2 m) in
  match control_len_map ix !! strip_index (Re.grp 3 m) with
  | None => []
  | Some ffl_len =>
      expand_rows dest_tags_set (λ k, index_name dst.1 (dst.2 + k))
        (λ k, row (index_name dst.1 (dst.2 + k))
                  (get_or_empty (base_desc_map ix) dst.1)
                  (get_or_empty (dtype_map ix) dst.1) ctx
                  "FFL" (Re.grp 1 m))
        ffl_len
  end.

(** Base and first index of the local or remote element of a message *)
Definition msg_split (elem : string) (local_index : Z) : string * Z :=
  match Re.re_match index_pat elem with
  | Some m => (Re.grp 1 m, group_int 2 m)
  | None => (elem, local_index)
  end.

Definition msg_rows (mp : MessageParameters) : option (list MappingRecord) :=
  if falsy (LocalElement mp) || falsy (RequestedLength mp) then Some []
  else
    length ← py_int (RequestedLength mp);
    local_index ← py_int (Some (default "0" (LocalIndex mp)));
    let dst := msg_split (or_empty (LocalElement mp)) local_index in
    let src := msg_split (or_empty (RemoteElement mp)) local_index in
    Some (expand_rows dest_tags_set (λ k, index_name dst.1 (dst.2 + k))
            (λ k, row (index_name dst.1 (dst.2 + k))
                      (get_or_empty (base_desc_map ix) dst.1)
                      (get_or_empty (dtype_map ix) dst.1) ctx
                      "MESSAGE" (index_name src.1 (src.2 + k)))
            length).

End rows.

(** The context of a rung whose ancestors exist *)
Definition rung_ctx (rung : RungEl) : option Context :=
  '(prog_name, rout_name) ← rung_context rung;
  Some (prog_name, rout_name, rung_Number rung).

Definition rung_txt (rung : RungEl) : string := or_empty (rung_Text rung).

(** The rows that the scan of one rung appends. *)
Definition rung_rows (ix : Index) (dest_tags_set : gset string)
  (rung : RungEl) : list MappingRecord :=
  match rung_ctx rung with
  | None => []
  | Some ctx =>
      (Re.matches cop_re (rung_txt rung) ≫= cop_rows ix dest_tags_set ctx)
      ++ (Re.matches mov_re (rung_txt rung) ≫= mov_rows ix dest_tags_set ctx)
      ++ (Re.matches ffl_re (rung_txt rung) ≫= ffl_rows ix dest_tags_set ctx)
      ++ (rung_messages rung ≫=
            λ mp, default [] (msg_rows ix dest_tags_set ctx mp))
  end.

(** The operands that the rung text drives with an OTE *)
Definition coil_operands (rung : RungEl) : list string :=
  filter (λ operand, Str.truthy operand = true)
         ((λ m, Str.strip (Re.grp 1 m)) <$>
            Re.matches ote_text_re (rung_txt rung)).

(** The occurrences of an operand as a coil, in scan order: one context
    for each OTE on [operand] in the text of each rung. *)
Definition coil_contexts_rung (operand : string) (rung : RungEl)
  : list Context :=
  match rung_ctx rung with
  | Some ctx => (λ _, ctx) <$> filter (λ o, o = operand) (coil_operands rung)
  | None => []
  end.

Definition coil_contexts (rungs : list RungEl) (operand : string)
  : list Context :=
  rungs ≫= coil_contexts_rung operand.

(** [ote_map.get(operand)], with no entry read as the empty list *)
Definition ote_list (om : gmap string (list Context)) (operand : string)
  : list Context :=
  default [] (om !! operand).

(** The row of one bit of a tag in the sweep, when an OTE drives it *)
Definition sweep_row (om : gmap string (list Context))
  (bc : gmap string string) (base : string) (idx : Z)
  (base_desc dt : string) (bit : Z) : option MappingRecord :=
  let operand := bit_name base idx bit in
  match om !! operand with
  | Some (c :: _) =>
      Some (row operand (default base_desc (bc !! operand)) dt c "OTE" "")
  | _ => None
  end.

(** The rows that the sweep appends for a tag that the scan left
    unmatched. *)
Definition sweep_rows (ix : Index) (om : gmap string (list Context))
  (bc : gmap string string) (orig : string) : list MappingRecord :=
  let base := (split_index orig).1 in
  let idx := (split_index orig).2 in
  let dt := get_or_empty (dtype_map ix) base in
  if negb (bool_decide (dt = "INT") || bool_decide (dt = "DINT")) then []
  else omap (sweep_row om bc base idx (get_or_empty (base_desc_map ix) base) dt)
            (py_range ((if bool_decide (dt = "INT") then 15 else 31) + 1)).

Definition not_found_row (ix : Index) (tag : string) : MappingRecord :=
  row tag (get_or_empty (base_desc_map ix) (split_index tag).1)
      (get_or_empty (dtype_map ix) (split_index tag).1)
      (Some "", Some "", Some "") "Not Found" "".

Definition append_all (rows : list MappingRecord) (st : State) : State :=
  {| records := records st ++ rows;
     found_original_tags := found_original_tags st;
     ote_map := ote_map st; bit_comments := bit_comments st |}.


(** ** Example documents and predicates of the statements *)

(** Where a row of the table comes from: the scan of a rung, the sweep
    of a tag that the scan left unmatched, or the "Not Found" pass over
    the tags that neither matched. [st] is the state after the scan. *)
Definition table_row (ix : Index) (tags : gset string) (rungs : list RungEl)
  (st : State) (r : MappingRecord) : Prop :=
  (∃ rung, rung ∈ rungs ∧ r ∈ rung_rows ix tags rung)
  ∨ (∃ orig, orig ∈ tags ∧ (orig ∉ found_original_tags st)
             ∧ r ∈ sweep_rows ix (ote_map st) (bit_comments st) orig)
  ∨ (∃ tag, tag ∈ tags ∧ (tag ∉ found_original_tags st)
            ∧ sweep_rows ix (ote_map st) (bit_comments st) tag = []
            ∧ r = not_found_row ix tag).

(** A destination written as [f"{base}[{i}]"] *)
Definition bracketed (s : string) : Prop := ∃ base i, s = index_name base i.

Definition ex_tag (name dt : string) (len : option (option string)) : TagEl :=
  {| tag_Name := Some name; tag_DataType := Some dt;
     tag_Description := None; tag_Comments := None; tag_LEN := len |}.

Definition ex_rung (number txt : string) : RungEl :=
  {| rung_context := Some (Some "MainProgram", Some "MainRoutine");
     rung_Number := Some number; rung_Text := Some txt;
     rung_operands := []; rung_messages := [] |}.

Definition ex_ctx (number : string) : Context :=
  (Some "MainProgram", Some "MainRoutine", Some number).

(** An INT tag with one bit driven by a coil *)
Definition doc_bits : Document :=
  {| doc_tags := [ex_tag "B" "INT" None];
     doc_rungs := [ex_rung "0" "XIC(Start)OTE(B[0].5);"] |}.

Definition out_bits : list MappingRecord :=
  [row "B[0].5" "" "INT" (ex_ctx "0") "OTE" ""].

(** A DINT tag without an index, with its last bit driven by a coil *)
Definition doc_motor : Document :=
  {| doc_tags := [ex_tag "Motor" "dint" None];
     doc_rungs := [ex_rung "7" "XIC(Run) OTE( Motor[0].31 );"] |}.

Definition out_motor : list MappingRecord :=
  [row "Motor[0].31" "" "DINT" (ex_ctx "7") "OTE" ""].

Definition doc_copy : Document :=
  {| doc_tags := [];
     doc_rungs := [ex_rung "3" "XIC(Go)COP(Z[5],Y[0],3);"] |}.

Definition out_copy : list MappingRecord :=
  [row "Y[0]" "" "" (ex_ctx "3") "COP" "Z[5]";
   row "Y[1]" "" "" (ex_ctx "3") "COP" "Z[6]";
   row "Y[2]" "" "" (ex_ctx "3") "COP" "Z[7]"].

Definition m_copy : list (nat * string) :=
  [(4, "3"); (3, "Y[0]"); (2, "Z[5]"); (1, "COP")]%nat.

(** A FIFO load of two elements *)
Definition doc_fifo : Document :=
  {| doc_tags := [ex_tag "Ctl" "CONTROL" (Some (Some "2"))];
     doc_rungs := [ex_rung "4" "XIC(Go)FFL(S[3],D[0],Ctl,2,0);"] |}.

Definition out_fifo : list MappingRecord :=
  [row "D[0]" "" "" (ex_ctx "4") "FFL" "S[3]";
   row "D[1]" "" "" (ex_ctx "4") "FFL" "S[3]"].

Definition m_fifo : list (nat * string) :=
  [(3, "Ctl"); (2, "D[0]"); (1, "S[3]")]%nat.


Definition doc_two_coils : Document :=
  {| doc_tags := [ex_tag "B" "INT" None];
     doc_rungs := [ex_rung "0" "XIC(a)OTE(C.1);";
                   ex_rung "1" "XIC(b)OTE(B[0].5);";
                   ex_rung "2" "XIC(c)ote( B[0].5 );"] |}.

Definition out_two_coils : list MappingRecord :=
  [row "B[0].5" "" "INT" (ex_ctx "1") "OTE" ""].

(** An INT tag whose only coil is on bit 16, which the sweep of an INT
    does not look up *)
Definition doc_high_bit : Document :=
  {| doc_tags := [ex_tag "B" "INT" None];
     doc_rungs := [ex_rung "0" "XIC(a)OTE(B[0].16);"] |}.

Definition out_high_bit : list MappingRecord :=
  [row "B[0]" "" "INT" (Some "", Some "", Some "") "Not Found" ""].

(** A bit that a rung reads and no coil drives *)
Definition doc_bit_read : Document :=
  {| doc_tags := [ex_tag "B" "INT" None];
     doc_rungs := [ex_rung "0" "XIC(B[0].5)OTE(Lamp);"] |}.

Definition out_bit_read : list MappingRecord :=
  [row "B[0].5" "" "" (Some "", Some "", Some "") "Not Found" ""].

(** A block copy of length 0 whose source index has [n] digits *)
Definition doc_long_index (n : nat) : Document :=
  {| doc_tags := [];
     doc_rungs :=
       [ex_rung "0" ("COP(A[" +:+ Str.replicate n "9" +:+ "],B,0);")] |}.

Definition doc_empty : Document := {| doc_tags := []; doc_rungs := [] |}.

Definition out_sorted : list MappingRecord :=
  [row "X" "" "" (Some "", Some "", Some "") "Not Found" "";
   row "X[2]" "" "" (Some "", Some "", Some "") "Not Found" "";
   row "X[2].3" "" "" (Some "", Some "", Some "") "Not Found" "";
   row "X[10]" "" "" (Some "", Some "", Some "") "Not Found" ""].

(** Two moves into one tag, the second written twice *)
Definition doc_moves : Document :=
  {| doc_tags := [];
     doc_rungs := [ex_rung "0" "MOV(A,T);";
                   ex_rung "1" "MOV(B,T)MOV(B,T);"] |}.

Definition out_moves : list MappingRecord :=
  [row "T" "" "" (ex_ctx "0") "MOV" "A";
   row "T" "" "" (ex_ctx "1") "MOV" "B"].

Definition ex_msg (local_elem req_len local_index remote_elem : option string)
  : MessageParameters :=
  {| LocalElement := local_elem; RequestedLength := req_len;
     LocalIndex := local_index; RemoteElement := remote_elem |}.

(** A read of two elements into [In[4]], from the remote [N7] *)
Definition doc_msg : Document :=
  {| doc_tags := [];
     doc_rungs :=
       [{| rung_context := Some (Some "MainProgram", Some "MainRoutine");
           rung_Number := Some "9"; rung_Text := Some "MSG(Ctl);";
           rung_operands := [];
           rung_messages :=
             [ex_msg (Some "In[4]") (Some "2") (Some "1") (Some "N7")] |}] |}.

Definition out_msg : list MappingRecord :=
  [row "In[4]" "" "" (ex_ctx "9") "MESSAGE" "N7[1]";
   row "In[5]" "" "" (ex_ctx "9") "MESSAGE" "N7[2]"].

Definition doc_comments : Document :=
  {| doc_tags :=
       [{| tag_Name := Some "B"; tag_DataType := Some "INT";
           tag_Description := Some {| attr_Text := None;
                                      el_text := Some " Status word " |};
           tag_Comments :=
             Some [{| com_Operand := Some "[0].5";
                      com_body := {| attr_Text := None;
                                     el_text := Some "Pump running" |} |}];
           tag_LEN := None |}];
     doc_rungs :=
       [{| rung_context := Some (Some "MainProgram", Some "MainRoutine");
           rung_Number := Some "0"; rung_Text := Some "XIC(a)OTE(B[0].5);";
           rung_operands :=
             [{| op_Operand := "B[0].5";
                 op_Comment := Some {| attr_Text := Some "rung note";
                                       el_text := None |} |}];
           rung_messages := [] |}] |}.

Definition out_comments : list MappingRecord :=
  [row "B[0].5" "Pump running" "INT" (ex_ctx "0") "OTE" ""].

(** ** The filter of the tag export (ParseMainTopicFromTags.py) *)

Module MainFilter.

(** The three tests of the loop over the rows *)
Definition keep (row : list string) : bool :=
  match row with
  | [] => false                                  (* not row *)
  | first :: rest =>
      if Str.startswith ":" first then false     (* section header *)
      else match rest with
           | [] => false                         (* len(row) < 2 *)
           | second :: _ => bool_decide (second = "Main")
           end
  end.

Definition max_cols (rows : list (list string)) : nat :=
  foldr Nat.max 0%nat (length <$> rows).

(** [r + [""]*(max_cols - len(r))] *)
Definition pad (n : nat) (r : list string) : list string :=
  r ++ replicate (n - length r) EmptyString.

(** [f"Col{i+1}"] *)
Definition col_name (i : nat) : string := "Col" +:+ py_str (Z.of_nat i + 1).

(** The columns and the rows of the frame that is written out *)
Definition main (rows : list (list string))
  : option (list string * list (list string)) :=
  match filter (λ r, keep r = true) rows with
  | [] => None
  | matches =>
      let n := max_cols matches in
      Some (col_name <$> seq 0 n, pad n <$> matches)
  end.

End MainFilter.

Definition csv_example : list (list string) :=
  [[":mode=ask"]; ["Tag1"; "Main"; "x"]; []; ["Tag2"; "Other"];
   ["Tag3"; "Main"]; ["Lonely"]].

(** A block copy written in lower case, with blanks *)
Definition doc_lower : Document :=
  {| doc_tags := [];
     doc_rungs := [ex_rung "5" "xic(go) cps ( Z[5] , Y[0] , 1 );"] |}.

(** ** Generic facts on loops *)

Lemma foldl_inv {A B} (P : A → Prop) (f : A → B → A) (l : list B) (a : A) :
  P a → (∀ a x, x ∈ l → P a → P (f a x)) → P (foldl f a l).
Proof.
  revert a. induction l as [|x l IH]; intros a Ha Hf; simpl; [done|].
  apply IH.
  - apply Hf; [left | done].
  - intros a' y Hy. apply Hf. by right.
Qed.

Lemma foldl_opt_inv {A B} (P : A → Prop) (f : A → B → option A)
  (l : list B) (a a' : A) :
  P a → (∀ a x a', x ∈ l → P a → f a x = Some a' → P a') →
  foldl_opt f a l = Some a' → P a'.
Proof.
  revert a. induction l as [|x l IH]; intros a Ha Hf; simpl.
  - by intros [= <-].
  - destruct (f a x) as [a1|] eqn:E; simpl; [|done].
    apply IH.
    + eapply Hf; [left | done..].
    + intros a2 y a3 Hy. apply Hf. by right.
Qed.

Lemma foldl_opt_app {A B} (f : A → B → option A) (l1 l2 : list B) (a : A) :
  foldl_opt f a (l1 ++ l2) = foldl_opt f a l1 ≫= λ a', foldl_opt f a' l2.
Proof.
  revert a. induction l1 as [|x l1 IH]; intros a; simpl; [done|].
  destruct (f a x); simpl; [apply IH | done].
Qed.

(** ** The effect of the scanner on [records] and [found_original_tags] *)

Lemma emit_all_nil st : emit_all [] st = st.
Proof.
  destruct st. unfold emit_all; simpl. f_equal.
  - apply app_nil_r.
  - apply (right_id_L ∅ (∪)).
Qed.

Lemma emit_all_app rows1 rows2 st :
  emit_all rows2 (emit_all rows1 st) = emit_all (rows1 ++ rows2) st.
Proof.
  unfold emit_all; simpl. f_equal.
  - by rewrite app_assoc.
  - rewrite fmap_app, list_to_set_app_L. by rewrite (assoc_L (∪)).
Qed.

Lemma emit_emit_all r st : emit r st = emit_all [r] st.
Proof.
  unfold emit, emit_all, mark_found, append_record; simpl. f_equal.
  by rewrite (right_id_L ∅ (∪)).
Qed.

Lemma foldl_expand (tags : gset string) (dst : Z → string) mk
  (f : State → Z → State) ks st :
  (∀ st k, f st k = if decide (dst k ∈ tags) then emit (mk k) st else st) →
  foldl f st ks =
  emit_all (omap (λ k, if decide (dst k ∈ tags) then Some (mk k) else None) ks)
           st.
Proof.
  intros Hf. revert st. induction ks as [|k ks IH]; intros st; simpl.
  - by rewrite emit_all_nil.
  - rewrite IH, Hf. destruct (decide (dst k ∈ tags)); [|done].
    by rewrite emit_emit_all, emit_all_app.
Qed.

Lemma foldl_emit_all {B} (f : State → B → State)
  (g : B → list MappingRecord) l st :
  (∀ st x, f st x = emit_all (g x) st) →
  foldl f st l = emit_all (l ≫= g) st.
Proof.
  intros Hf. revert st. induction l as [|x l IH]; intros st; simpl.
  - by rewrite emit_all_nil.
  - by rewrite IH, Hf, emit_all_app.
Qed.

Lemma foldl_opt_emit_all {B} (f : State → B → option State)
  (g : B → option (list MappingRecord)) l st st' :
  (∀ st x, f st x = (λ rows, emit_all rows st) <$> g x) →
  foldl_opt f st l = Some st' →
  st' = emit_all (l ≫= λ x, default [] (g x)) st.
Proof.
  intros Hf. revert st. induction l as [|x l IH]; intros st; simpl.
  - intros [= <-]. by rewrite emit_all_nil.
  - rewrite Hf. destruct (g x) as [rows|]; simpl; [|done].
    intros H%IH. by rewrite H, emit_all_app.
Qed.

Lemma cop_step_rows ix tags ctx st m :
  cop_step ix tags ctx st m = emit_all (cop_rows ix tags ctx m) st.
Proof.
  unfold cop_step, cop_rows, expand_rows.
  destruct (split_index (Re.grp 2 m)) as [src_base src_i0].
  destruct (split_index (Re.grp 3 m)) as [dst_base dst_i0]. simpl.
  by apply foldl_expand.
Qed.

Lemma mov_step_rows ix tags ctx st m :
  mov_step ix tags ctx st m = emit_all (mov_rows ix tags ctx m) st.
Proof.
  unfold mov_step, mov_rows.
  destruct (decide (Re.grp 2 m ∈ tags)).
  - destruct (split_index (Re.grp 2 m)) as [dst_base ?]. simpl.
    apply emit_emit_all.
  - by rewrite emit_all_nil.
Qed.

Lemma expand_rows_0 (tags : gset string) dst mk : expand_rows tags dst mk 0 = [].
Proof. done. Qed.

Lemma ffl_step_rows ix tags ctx st m :
  ffl_step ix tags ctx st m = emit_all (ffl_rows ix tags ctx m) st.
Proof.
  unfold ffl_step, ffl_rows.
  destruct (control_len_map ix !! strip_index (Re.grp 3 m)) as [n|];
    [|by rewrite emit_all_nil].
  destruct (Z.eqb_spec n 0) as [->|Hn].
  - by rewrite expand_rows_0, emit_all_nil.
  - destruct (split_index (Re.grp 2 m)) as [dst_base dst_i0]. simpl.
    by apply foldl_expand.
Qed.

Lemma msg_step_rows ix tags ctx st mp :
  msg_step ix tags ctx st mp =
  (λ rows, emit_all rows st) <$> msg_rows ix tags ctx mp.
Proof.
  unfold msg_step, msg_rows, msg_split.
  destruct (falsy (LocalElement mp) || falsy (RequestedLength mp)); simpl.
  { by rewrite emit_all_nil. }
  destruct (py_int (RequestedLength mp)) as [len|]; simpl; [|done].
  destruct (py_int_str (default "0" (LocalIndex mp))) as [li|]; simpl; [|done].
  destruct (Re.re_match index_pat (or_empty (LocalElement mp)));
    destruct (Re.re_match index_pat (or_empty (RemoteElement mp)));
    simpl; f_equal; by apply foldl_expand.
Qed.

Lemma ote_step_records ctx st m : records (ote_step ctx st m) = records st.
Proof. unfold ote_step. by destruct (Str.truthy _). Qed.

Lemma ote_step_found ctx st m :
  found_original_tags (ote_step ctx st m) = found_original_tags st.
Proof. unfold ote_step. by destruct (Str.truthy _). Qed.

Lemma ote_step_list ctx st m operand :
  ote_list (ote_map (ote_step ctx st m)) operand =
  ote_list (ote_map st) operand ++
  ((λ _, ctx) <$> filter (λ o, o = operand)
                    (filter (λ o, Str.truthy o = true)
                       [Str.strip (Re.grp 1 m)])).
Proof.
  unfold ote_step, ote_list.
  rewrite (filter_cons _ (Str.strip _)), filter_nil.
  destruct (Str.truthy (Str.strip (Re.grp 1 m))) eqn:Ht.
  - rewrite decide_True by done. simpl.
    rewrite filter_cons, filter_nil.
    destruct (decide (Str.strip (Re.grp 1 m) = operand)) as [->|Hne].
    + by rewrite lookup_insert_eq.
    + rewrite lookup_insert_ne by done. simpl. by rewrite app_nil_r.
  - rewrite decide_False by done. rewrite filter_nil. simpl.
    by rewrite app_nil_r.
Qed.

Lemma comment_step_records st e : records (comment_step st e) = records st.
Proof.
  unfold comment_step. destruct (negb _); [done|].
  destruct (op_Comment e); [|done]. by destruct (_ && _).
Qed.

Lemma comment_step_found st e :
  found_original_tags (comment_step st e) = found_original_tags st.
Proof.
  unfold comment_step. destruct (negb _); [done|].
  destruct (op_Comment e); [|done]. by destruct (_ && _).
Qed.

Lemma comment_step_ote st e : ote_map (comment_step st e) = ote_map st.
Proof.
  unfold comment_step. destruct (negb _); [done|].
  destruct (op_Comment e); [|done]. by destruct (_ && _).
Qed.

(** The first two loops of a rung leave the rows alone and extend
    [ote_map] by the coils of the rung. *)
Lemma ote_loop ctx st ms :
  let st' := foldl (ote_step ctx) st ms in
  records st' = records st ∧
  found_original_tags st' = found_original_tags st ∧
  ∀ operand,
    ote_list (ote_map st') operand =
    ote_list (ote_map st) operand ++
    ((λ _, ctx) <$> filter (λ o, o = operand)
                      (filter (λ o, Str.truthy o = true)
                         ((λ m, Str.strip (Re.grp 1 m)) <$> ms))).
Proof.
  revert st. induction ms as [|m ms IH]; intros st; simpl.
  - split_and!; [done..|]. intros. by rewrite app_nil_r.
  - destruct (IH (ote_step ctx st m)) as (Hr & Hf & Ho).
    split_and!.
    + by rewrite Hr, ote_step_records.
    + by rewrite Hf, ote_step_found.
    + intros operand. rewrite Ho, ote_step_list, <- app_assoc. f_equal.
      rewrite <- fmap_app. f_equal.
      rewrite <- !filter_app. done.
Qed.

Lemma comment_loop st es :
  let st' := foldl comment_step st es in
  records st' = records st ∧
  found_original_tags st' = found_original_tags st ∧
  ote_map st' = ote_map st.
Proof.
  apply (foldl_inv (λ st', records st' = records st ∧
                     found_original_tags st' = found_original_tags st ∧
                     ote_map st' = ote_map st)); [done|].
  intros a e _ (Hr & Hf & Ho).
  by rewrite comment_step_records, comment_step_found, comment_step_ote.
Qed.

(** The scan of one rung. *)
Lemma scan_rung_spec ix tags st rung st' :
  scan_rung ix tags st rung = Some st' →
  is_Some (rung_ctx rung) ∧
  records st' = records st ++ rung_rows ix tags rung ∧
  found_original_tags st' =
    found_original_tags st ∪ list_to_set (Col45 <$> rung_rows ix tags rung) ∧
  ∀ operand,
    ote_list (ote_map st') operand =
    ote_list (ote_map st) operand ++ coil_contexts_rung operand rung.
Proof.
  unfold scan_rung, rung_rows, coil_contexts_rung, coil_operands, rung_ctx.
  destruct (rung_context rung) as [[prog_name rout_name]|]; simpl; [|done].
  fold (rung_txt rung).
  set (ctx := (prog_name, rout_name, rung_Number rung)).
  destruct (ote_loop ctx st (Re.matches ote_text_re (rung_txt rung)))
    as (Hr1 & Hf1 & Ho1).
  set (st1 := foldl (ote_step ctx) st _) in *.
  destruct (comment_loop st1 (rung_operands rung)) as (Hr2 & Hf2 & Ho2).
  set (st2 := foldl comment_step st1 _) in *.
  rewrite (foldl_emit_all _ _ _ _ (cop_step_rows ix tags ctx)).
  rewrite (foldl_emit_all _ _ _ _ (mov_step_rows ix tags ctx)).
  rewrite (foldl_emit_all _ _ _ _ (ffl_step_rows ix tags ctx)).
  intros H.
  apply (foldl_opt_emit_all _ (msg_rows ix tags ctx)) in H;
    [|intros; apply msg_step_rows].
  rewrite !emit_all_app in H. subst st'. simpl.
  rewrite Hr2, Hr1, Hf2, Hf1, Ho2.
  split_and!; [by eexists|done|done|apply Ho1].
Qed.

(** The scan of all the rungs, from any state. *)
Lemma scan_loop ix tags rungs st st' :
  foldl_opt (scan_rung ix tags) st rungs = Some st' →
  Forall (λ rung, is_Some (rung_ctx rung)) rungs ∧
  records st' = records st ++ (rungs ≫= rung_rows ix tags) ∧
  found_original_tags st' =
    found_original_tags st
    ∪ list_to_set (Col45 <$> (rungs ≫= rung_rows ix tags)) ∧
  ∀ operand,
    ote_list (ote_map st') operand =
    ote_list (ote_map st) operand ++ coil_contexts rungs operand.
Proof.
  revert st. induction rungs as [|rung rungs IH]; intros st; simpl.
  - intros [= <-]. split_and!; [done|by rewrite app_nil_r| |].
    + by rewrite (right_id_L ∅ (∪)).
    + intros. unfold coil_contexts. simpl. by rewrite app_nil_r.
  - destruct (scan_rung ix tags st rung) as [st1|] eqn:E; simpl; [|done].
    apply scan_rung_spec in E as (Hc & Hr & Hf & Ho).
    intros (HF & Hr' & Hf' & Ho')%IH. split_and!.
    + by constructor.
    + by rewrite Hr', Hr, <- app_assoc.
    + rewrite Hf', Hf, fmap_app, list_to_set_app_L. by rewrite (assoc_L (∪)).
    + intros operand. rewrite Ho', Ho, <- app_assoc. done.
Qed.

Lemma scan_rungs_spec ix tags rungs st :
  scan_rungs ix tags rungs = Some st →
  Forall (λ rung, is_Some (rung_ctx rung)) rungs ∧
  records st = rungs ≫= rung_rows ix tags ∧
  found_original_tags st = list_to_set (Col45 <$> records st) ∧
  ∀ operand, ote_list (ote_map st) operand = coil_contexts rungs operand.
Proof.
  intros (HF & Hr & Hf & Ho)%scan_loop. simpl in *.
  split_and!; [done|done| |].
  - rewrite Hf, Hr. by rewrite (left_id_L ∅ (∪)).
  - intros operand. rewrite Ho. unfold ote_list. by rewrite lookup_empty.
Qed.

(** ** The effect of the sweep and of the "Not Found" pass *)

Lemma append_all_nil st : append_all [] st = st.
Proof. destruct st. unfold append_all; simpl. by rewrite app_nil_r. Qed.

Lemma sweep_bit_row base idx base_desc dt st emitted bit :
  sweep_bit base idx base_desc dt (st, emitted) bit =
  match sweep_row (ote_map st) (bit_comments st) base idx base_desc dt bit with
  | Some r => (append_record r st, true)
  | None => (st, emitted)
  end.
Proof.
  unfold sweep_bit, sweep_row. simpl.
  by destruct (ote_map st !! bit_name base idx bit) as [[|c l]|].
Qed.

Lemma sweep_bits base idx base_desc dt bits st emitted :
  foldl (sweep_bit base idx base_desc dt) (st, emitted) bits =
  let rows := omap (sweep_row (ote_map st) (bit_comments st)
                              base idx base_desc dt) bits in
  (append_all rows st,
   match rows with [] => emitted | _ => true end).
Proof.
  revert st emitted.
  induction bits as [|bit bits IH]; intros st emitted.
  - simpl. by rewrite append_all_nil.
  - cbn [foldl]. rewrite sweep_bit_row. cbn [omap list_omap].
    destruct (sweep_row _ _ _ _ _ _ bit) as [r|] eqn:E; [|apply IH].
    rewrite IH. cbn. f_equal.
    + unfold append_all, append_record. cbn. f_equal.
      by rewrite <- app_assoc.
    + by destruct (omap _ bits).
Qed.

Lemma sweep_tag_rows ix st orig :
  sweep_tag ix st orig =
  if decide (orig ∈ found_original_tags st) then st
  else match sweep_rows ix (ote_map st) (bit_comments st) orig with
       | [] => st
       | rows => mark_found orig (append_all rows st)
       end.
Proof.
  unfold sweep_tag, sweep_rows.
  destruct (decide (orig ∈ found_original_tags st)); [done|].
  destruct (split_index orig) as [base idx]. simpl.
  destruct (negb _); [done|].
  rewrite sweep_bits. simpl.
  destruct (omap _ _); [|done].
  by rewrite append_all_nil.
Qed.

Lemma sweep_tag_maps ix st orig :
  ote_map (sweep_tag ix st orig) = ote_map st ∧
  bit_comments (sweep_tag ix st orig) = bit_comments st.
Proof.
  rewrite sweep_tag_rows. destruct (decide _); [done|].
  by destruct (sweep_rows _ _ _ _).
Qed.

(** The sweep over a list of tags, from any state. *)
Lemma sweep_loop ix ts st :
  let st' := foldl (sweep_tag ix) st ts in
  let rows := sweep_rows ix (ote_map st) (bit_comments st) in
  ote_map st' = ote_map st ∧ bit_comments st' = bit_comments st ∧
  (∀ r, r ∈ records st' ↔
        r ∈ records st ∨
        (∃ orig, orig ∈ ts ∧ (orig ∉ found_original_tags st) ∧ r ∈ rows orig)) ∧
  (∀ t, t ∈ found_original_tags st' ↔
        t ∈ found_original_tags st ∨ (t ∈ ts ∧ rows t ≠ [])).
Proof.
  revert st. induction ts as [|o ts IH]; intros st; simpl.
  - split_and!; [done..| |].
    + intros r. split; [by left|]. intros [?|(?&[]%elem_of_nil&_)]; done.
    + intros t. split; [by left|]. intros [?|([]%elem_of_nil&_)]; done.
  - destruct (IH (sweep_tag ix st o)) as (Ho & Hb & Hr & Hf).
    destruct (sweep_tag_maps ix st o) as [Ho1 Hb1].
    rewrite Ho1, Hb1 in *. split_and!; [done..| |].
    + intros r. rewrite Hr. rewrite sweep_tag_rows.
      destruct (decide (o ∈ found_original_tags st)) as [Hin|Hnin].
      * split.
        -- intros [?|(orig & ? & ? & ?)]; [by left|].
           right. exists orig. split_and!; [by right|done..].
        -- intros [?|(orig & [->|?]%elem_of_cons & ? & ?)]; [by left|done|].
           right. by exists orig.
      * destruct (sweep_rows ix (ote_map st) (bit_comments st) o)
          as [|r0 rows0] eqn:E.
        -- split.
           ++ intros [?|(orig & ? & ? & ?)]; [by left|].
              right. exists orig. split_and!; [by right|done..].
           ++ intros [?|(orig & [->|?]%elem_of_cons & ? & Hin)]; [by left| |].
              ** rewrite E in Hin. by apply elem_of_nil in Hin.
              ** right. by exists orig.
        -- simpl. split.
           ++ intros [[?|Hin]%elem_of_app|(orig & ? & Hn & ?)].
              ** by left.
              ** right. exists o. split_and!; [by left|done|by rewrite E].
              ** right. exists orig. split_and!; [by right| |done].
                 intros ?. apply Hn. apply elem_of_union. by left.
           ++ intros [?|(orig & [->|?]%elem_of_cons & Hn & Hin)].
              ** left. apply elem_of_app. by left.
              ** left. apply elem_of_app. right. by rewrite <- E.
              ** destruct (decide (orig = o)) as [->|Hne].
                 { left. apply elem_of_app. right. by rewrite <- E. }
                 right. exists orig. split_and!; [done| |done].
                 intros [?|?%elem_of_singleton]%elem_of_union; done.
    + intros t. rewrite Hf. rewrite sweep_tag_rows.
      destruct (decide (o ∈ found_original_tags st)) as [Hin|Hnin].
      * split.
        -- intros [?|[? ?]]; [by left|]. right. split; [by right|done].
        -- intros [?|[[->|?]%elem_of_cons ?]]; [by left|by left|by right].
      * destruct (sweep_rows ix (ote_map st) (bit_comments st) o)
          as [|r0 rows0] eqn:E.
        -- split.
           ++ intros [?|[? ?]]; [by left|]. right. split; [by right|done].
           ++ intros [?|[[->|?]%elem_of_cons ?]]; [by left|done|by right].
        -- simpl. split.
           ++ intros [[?| ->%elem_of_singleton]%elem_of_union|[? ?]].
              ** by left.
              ** right. split; [by left|by rewrite E].
              ** right. split; [by right|done].
           ++ intros [?|[[->|?]%elem_of_cons ?]].
              ** left. apply elem_of_union. by left.
              ** left. apply elem_of_union. right. by apply elem_of_singleton.
              ** by right.
Qed.

Lemma not_found_step_rows ix st tag :
  not_found_step ix st tag =
  if decide (tag ∈ found_original_tags st) then st
  else append_all [not_found_row ix tag] st.
Proof.
  unfold not_found_step, not_found_row.
  destruct (decide _); [done|].
  by destruct (split_index tag).
Qed.

Lemma not_found_loop ix ts st :
  let st' := foldl (not_found_step ix) st ts in
  ∀ r, r ∈ records st' ↔
       r ∈ records st ∨
       (∃ tag, tag ∈ ts ∧ (tag ∉ found_original_tags st) ∧
               r = not_found_row ix tag).
Proof.
  revert st. induction ts as [|t ts IH]; intros st; simpl.
  - intros r. split; [by left|]. intros [?|(?&[]%elem_of_nil&_)]; done.
  - intros r. rewrite IH, not_found_step_rows.
    destruct (decide (t ∈ found_original_tags st)) as [Hin|Hnin]; simpl.
    + split.
      * intros [?|(tag & ? & ? & ?)]; [by left|].
        right. exists tag. split_and!; [by right|done..].
      * intros [?|(tag & [->|?]%elem_of_cons & ? & ?)]; [by left|done|].
        right. by exists tag.
    + split.
      * intros [[?| ->%list_elem_of_singleton]%elem_of_app|(tag & ? & ? & ?)].
        -- by left.
        -- right. exists t. split_and!; [by left|done..].
        -- right. exists tag. split_and!; [by right|done..].
      * intros [?|(tag & [->|?]%elem_of_cons & ? & ->)].
        -- left. apply elem_of_app. by left.
        -- left. apply elem_of_app. right. by apply list_elem_of_singleton.
        -- right. by exists tag.
Qed.

(** ** Sorting and duplicates *)

Section stable_sort.

Context {A : Type} (leb : A → A → bool).

Lemma insert_sorted_perm x l : insert_sorted leb x l ≡ₚ x :: l.
Proof.
  induction l as [|y l IH]; simpl; [done|].
  destruct (leb x y); [done|].
  rewrite IH. apply Permutation_swap.
Qed.

Lemma stable_sort_perm l : stable_sort leb l ≡ₚ l.
Proof.
  induction l as [|x l IH]; simpl; [done|].
  unfold stable_sort in *. simpl. by rewrite insert_sorted_perm, IH.
Qed.

Lemma elem_of_stable_sort x l : x ∈ stable_sort leb l ↔ x ∈ l.
Proof. by rewrite stable_sort_perm. Qed.

Hypothesis leb_total : ∀ x y, leb x y = true ∨ leb y x = true.
Hypothesis leb_trans :
  ∀ x y z, leb x y = true → leb y z = true → leb x z = true.

Lemma insert_sorted_sorted x l :
  StronglySorted (λ a b, leb a b = true) l →
  StronglySorted (λ a b, leb a b = true) (insert_sorted leb x l).
Proof.
  induction 1 as [|y l Hl IH Hy]; simpl.
  - repeat constructor.
  - destruct (leb x y) eqn:E.
    + constructor; [by constructor|].
      constructor; [done|].
      eapply Forall_impl; [exact Hy|]. intros z Hz. by eapply leb_trans.
    + constructor; [done|].
      rewrite insert_sorted_perm. constructor; [|done].
      destruct (leb_total x y); congruence.
Qed.

Lemma stable_sort_sorted l :
  StronglySorted (λ a b, leb a b = true) (stable_sort leb l).
Proof.
  induction l as [|x l IH]; [constructor|].
  by apply insert_sorted_sorted.
Qed.

End stable_sort.

(** In a sorted list, an element that is strictly smaller comes first. *)
Lemma sorted_lookup_lt {A} (leb : A → A → bool) l i j x y :
  (∀ a, leb a a = true) →
  StronglySorted (λ a b, leb a b = true) l →
  l !! i = Some x → l !! j = Some y → leb y x = false → (i < j)%nat.
Proof.
  intros Hrefl Hs. revert i j. induction Hs as [|z l Hl IH Hz]; intros i j.
  - by rewrite lookup_nil.
  - destruct i as [|i], j as [|j]; simpl.
    + intros [= ->] [= ->] Hf. by rewrite Hrefl in Hf.
    + intros; lia.
    + intros Hi [= ->] Hf. apply list_elem_of_lookup_2 in Hi.
      rewrite Forall_forall in Hz. apply Hz in Hi. congruence.
    + intros Hi Hj Hf. apply -> Nat.succ_lt_mono. by eapply IH.
Qed.

(** ** The order of the sort keys *)

Lemma idx_bit_leb_spec i1 b1 i2 b2 :
  idx_bit_leb i1 b1 i2 b2 = true ↔ i1 < i2 ∨ (i1 = i2 ∧ b1 <= b2).
Proof.
  unfold idx_bit_leb.
  rewrite orb_true_iff, andb_true_iff, Z.ltb_lt, Z.eqb_eq, Z.leb_le. done.
Qed.

Lemma compare_refl s : String.compare s s = Eq.
Proof.
  induction s as [|c s IH]; simpl; [done|].
  unfold Ascii.compare. by rewrite N.compare_refl.
Qed.

Lemma compare_lt_gt s1 s2 :
  String.compare s1 s2 = Lt ↔ String.compare s2 s1 = Gt.
Proof.
  rewrite (String.compare_antisym s2 s1).
  destruct (String.compare s1 s2); simpl; split; congruence.
Qed.

Lemma compare_lt_trans s1 s2 s3 :
  String.compare s1 s2 = Lt → String.compare s2 s3 = Lt →
  String.compare s1 s3 = Lt.
Proof.
  intros H12 H23.
  assert (String.le s1 s3) as Hle.
  { transitivity s2; unfold String.le, String.leb; [by rewrite H12|by rewrite H23]. }
  unfold String.le, String.leb in Hle.
  destruct (String.compare s1 s3) eqn:E; [|done|done].
  apply String.compare_eq_iff in E as ->.
  apply compare_lt_gt in H12. congruence.
Qed.

Lemma frame_leb_refl k : frame_leb k k = true.
Proof.
  destruct k as [[[b|] i] j]; unfold frame_leb; simpl;
    rewrite ?compare_refl; apply idx_bit_leb_spec; lia.
Qed.

Lemma frame_leb_total k1 k2 : frame_leb k1 k2 = true ∨ frame_leb k2 k1 = true.
Proof.
  destruct k1 as [[[b1|] i1] j1], k2 as [[[b2|] i2] j2];
    unfold frame_leb; simpl; auto.
  - rewrite (String.compare_antisym b2 b1).
    destruct (String.compare b1 b2); simpl; auto.
    rewrite !idx_bit_leb_spec. lia.
  - rewrite !idx_bit_leb_spec. lia.
Qed.

Lemma frame_leb_trans k1 k2 k3 :
  frame_leb k1 k2 = true → frame_leb k2 k3 = true → frame_leb k1 k3 = true.
Proof.
  destruct k1 as [[[b1|] i1] j1], k2 as [[[b2|] i2] j2],
    k3 as [[[b3|] i3] j3]; unfold frame_leb; simpl; try done.
  - destruct (String.compare b1 b2) eqn:E12; [|..|done].
    + apply String.compare_eq_iff in E12 as ->.
      destruct (String.compare b2 b3); [|done..].
      rewrite !idx_bit_leb_spec. lia.
    + destruct (String.compare b2 b3) eqn:E23; [|..|done].
      * apply String.compare_eq_iff in E23 as <-. by rewrite E12.
      * by rewrite (compare_lt_trans _ _ _ E12 E23).
  - rewrite !idx_bit_leb_spec. lia.
Qed.

Lemma row_leb_refl r : row_leb r r = true.
Proof. apply frame_leb_refl. Qed.

Lemma row_leb_total r1 r2 : row_leb r1 r2 = true ∨ row_leb r2 r1 = true.
Proof. apply frame_leb_total. Qed.

Lemma row_leb_trans r1 r2 r3 :
  row_leb r1 r2 = true → row_leb r2 r3 = true → row_leb r1 r3 = true.
Proof. apply frame_leb_trans. Qed.

(** ** The consolidation *)

Lemma drop_dups_from_spec seen rows :
  (∀ r, r ∈ drop_dups_from seen rows ↔ r ∈ rows ∧ r ∉ seen) ∧
  NoDup (drop_dups_from seen rows).
Proof.
  revert seen. induction rows as [|x rows IH]; intros seen; simpl.
  - split; [|constructor]. intros r. rewrite elem_of_nil. tauto.
  - destruct (decide (x ∈ seen)) as [Hin|Hnin].
    + destruct (IH seen) as [Hm Hn]. split; [|done].
      intros r. rewrite Hm, elem_of_cons.
      split; [tauto|]. intros [[->|?] ?]; tauto.
    + destruct (IH (x :: seen)) as [Hm Hn]. split.
      * intros r. rewrite elem_of_cons, Hm, !elem_of_cons.
        destruct (decide (r = x)) as [->|Hne]; [tauto|]. tauto.
      * constructor; [|done]. rewrite Hm, elem_of_cons. tauto.
Qed.

Lemma elem_of_drop_duplicates r rows : r ∈ drop_duplicates rows ↔ r ∈ rows.
Proof.
  unfold drop_duplicates.
  rewrite (proj1 (drop_dups_from_spec [] rows)), elem_of_nil. tauto.
Qed.

Lemma NoDup_drop_duplicates rows : NoDup (drop_duplicates rows).
Proof. apply drop_dups_from_spec. Qed.

Lemma consolidate_spec int_max rows out :
  consolidate int_max rows = Some out →
  NoDup out ∧ (∀ r, r ∈ out ↔ r ∈ rows) ∧
  StronglySorted (λ r1 r2, row_leb r1 r2 = true) out.
Proof.
  unfold consolidate. destruct (forallb _ _); [|done]. intros [= <-].
  split_and!.
  - rewrite stable_sort_perm. apply NoDup_drop_duplicates.
  - intros r. by rewrite elem_of_stable_sort, elem_of_drop_duplicates.
  - apply stable_sort_sorted; [apply row_leb_total|apply row_leb_trans].
Qed.

(** ** Facts on the matcher *)

Lemma first_some_elem {A B} (f : A → option B) l y :
  Re.first_some f l = Some y → ∃ x, x ∈ l ∧ f x = Some y.
Proof.
  induction l as [|x l IH]; simpl; [done|].
  destruct (f x) as [y'|] eqn:E.
  - intros [= ->]. exists x. split; [left|done].
  - intros (x' & ? & ?)%IH. exists x'. split; [by right|done].
Qed.

(** A successful match went along a path of the expression. *)
Lemma rmatch_path r k s res :
  Re.rmatch r k s = Some res → ∃ s', Re.path r s s' ∧ k s' = Some res.
Proof.
  revert k s. induction r as [p|g mn p|r1 IH1 r2 IH2|r1 IH1 r2 IH2|r1 IH1
                              |n r1 IH1| | |]; intros k s; simpl.
  - destruct (Re.m_rest s) as [|c rest] eqn:E; [done|].
    destruct (p c) eqn:Ep; [|done]. intros Hk.
    exists (Re.advance 1 s). split; [|done]. by exists c, rest.
  - intros (n & Hn & Hk)%first_some_elem.
    exists (Re.advance n s). split; [|done]. exists n. split; [|done].
    assert (n ∈ seq mn (S (Str.run p (Re.m_rest s)) - mn)) as Hin.
    { destruct g; [|done].
      apply list_elem_of_In. apply in_rev. by apply list_elem_of_In. }
    apply elem_of_seq in Hin. lia.
  - intros (s1 & H1 & (s2 & H2 & Hk)%IH2)%IH1.
    exists s2. split; [by exists s1|done].
  - destruct (Re.rmatch r1 k s) as [res'|] eqn:E.
    + intros [= ->]. apply IH1 in E as (s' & ? & ?). exists s'. auto.
    + intros (s' & ? & ?)%IH2. exists s'. auto.
  - destruct (Re.rmatch r1 k s) as [res'|] eqn:E.
    + intros [= ->]. apply IH1 in E as (s' & ? & ?). exists s'. auto.
    + intros Hk. exists s. auto.
  - intros (s1 & H1 & Hk)%IH1. exists (Re.capture n s s1).
    split; [by exists s1|done].
  - destruct (xorb _ _) eqn:E; [|done]. intros Hk. exists s. auto.
  - destruct (Re.m_prev s) eqn:E; [done|]. intros Hk. exists s. auto.
  - destruct (_ || _) eqn:E; [|done]. intros Hk. exists s. split; [|done].
    split; [|done].
    apply orb_true_iff in E as [E|E]; apply bool_decide_eq_true in E; auto.
Qed.

Lemma scan_path r skip prev s n caps :
  (n, caps) ∈ Re.scan r skip prev s →
  ∃ prev' s0 s', Re.path r (Re.start prev' s0) s' ∧ caps = Re.m_caps s'.
Proof.
  revert skip prev. induction s as [|c s IH]; intros skip prev.
  - destruct skip as [|skip]; simpl; [|by intros ?%elem_of_nil].
    destruct (Re.rmatch r Some (Re.start prev EmptyString)) as [m|] eqn:E;
      [|by intros ?%elem_of_nil].
    intros [= -> ->]%list_elem_of_singleton.
    apply rmatch_path in E as (s' & Hp & [= ->]). by exists prev, EmptyString, m.
  - destruct skip as [|skip]; simpl; [|apply IH].
    destruct (Re.rmatch r Some (Re.start prev (String c s))) as [m|] eqn:E;
      [|apply IH].
    intros [[= -> ->]|Hin]%elem_of_cons; [|by eapply IH].
    apply rmatch_path in E as (s' & Hp & [= ->]).
    by exists prev, (String c s), m.
Qed.

Lemma matches_path r txt m :
  m ∈ Re.matches r txt →
  ∃ prev s0 s', Re.path r (Re.start prev s0) s' ∧ m = Re.m_caps s'.
Proof.
  unfold Re.matches. intros ([n caps] & -> & Hin)%list_elem_of_fmap.
  by eapply scan_path.
Qed.

Lemma path_seq r1 r2 s s' :
  Re.path (r1 ⋅ r2) s s' ↔ ∃ s1, Re.path r1 s s1 ∧ Re.path r2 s1 s'.
Proof. done. Qed.

Lemma path_grp n r s s' :
  Re.path (Re.Grp n r) s s' ↔ ∃ s1, Re.path r s s1 ∧ s' = Re.capture n s s1.
Proof. done. Qed.

(** A group that the expression does not have keeps its value. *)
Lemma path_group_other n r s s' :
  Re.binds n r = false → Re.path r s s' →
  Re.group n (Re.m_caps s') = Re.group n (Re.m_caps s).
Proof.
  revert s s'. induction r as [p|g mn p|r1 IH1 r2 IH2|r1 IH1 r2 IH2|r1 IH1
                               |i r1 IH1| | |]; intros s s'; simpl.
  - by intros _ (c & rest & _ & _ & ->).
  - by intros _ (k & _ & ->).
  - intros [H1 H2]%orb_false_iff (s1 & Hp1 & Hp2).
    by rewrite (IH2 _ _ H2 Hp2), (IH1 _ _ H1 Hp1).
  - intros [H1 H2]%orb_false_iff [Hp|Hp]; eauto.
  - intros H1 [Hp| ->]; eauto.
  - intros [Hi H1]%orb_false_iff (s1 & Hp1 & ->). simpl.
    rewrite Hi. eauto.
  - by intros _ [_ ->].
  - by intros _ [_ ->].
  - by intros _ [_ ->].
Qed.

Lemma upper_lower c : Chr.upper (Chr.lower c) = Chr.upper c.
Proof. by destruct c as [[] [] [] [] [] [] [] []]. Qed.

Lemma upper_of_upper d : Chr.is_upper d = true → Chr.upper d = d.
Proof. by destruct d as [[] [] [] [] [] [] [] []]. Qed.

Lemma upper_of_lower c d :
  Chr.lower c = Chr.lower d → Chr.is_upper d = true → Chr.upper c = d.
Proof.
  intros Hl Hu.
  by rewrite <- (upper_lower c), Hl, upper_lower, upper_of_upper.
Qed.

(** A three-letter name matched without regard to case. *)
Lemma iword3_path a b c prev s0 s3 :
  Chr.is_upper a = true → Chr.is_upper b = true → Chr.is_upper c = true →
  Re.path (Re.iword (String a (String b (String c EmptyString))))
          (Re.start prev s0) s3 →
  Str.upper (Str.take (Re.m_pos s3 - 0) s0)
  = String a (String b (String c EmptyString)).
Proof.
  intros Ha Hb Hc (s4 & (x & r1 & E1 & Hx & ->) & s5
                   & (y & r2 & E2 & Hy & ->) & (z & r3 & E3 & Hz & ->)).
  simpl in E1. subst s0. simpl in E2. subst r1. simpl in E3. subst r2.
  apply bool_decide_eq_true in Hx, Hy, Hz. simpl. unfold Str.upper. simpl.
  by rewrite (upper_of_lower x a), (upper_of_lower y b), (upper_of_lower z c).
Qed.

(** The first group of a block-copy match is one of the two names. *)
Lemma cop_instr txt m :
  m ∈ Re.matches cop_re txt →
  Str.upper (Re.grp 1 m) = "COP" ∨ Str.upper (Re.grp 1 m) = "CPS".
Proof.
  intros (prev & s0 & s' & Hp & ->)%matches_path.
  unfold cop_re in Hp.
  apply path_seq in Hp as (s1 & [_ ->] & Hp).
  apply path_seq in Hp as (s2 & (s3 & Hname & ->)%path_grp & Hrest).
  apply path_group_other with (n := 1%nat) in Hrest; [|done].
  unfold Re.grp. rewrite Hrest. clear Hrest. simpl.
  destruct Hname as [H|H]; [left|right]; by apply iword3_path in H.
Qed.

(** ** The rows of the instructions *)

Lemma elem_of_py_range k n : k ∈ py_range n ↔ 0 <= k < n.
Proof.
  unfold py_range. rewrite list_elem_of_fmap. split.
  - intros (i & -> & Hi%elem_of_seq). lia.
  - intros Hk. exists (Z.to_nat k). split; [lia|]. apply elem_of_seq. lia.
Qed.

Lemma elem_of_expand_rows (tags : gset string) dst mk n r :
  r ∈ expand_rows tags dst mk n ↔
  ∃ k, 0 <= k < n ∧ dst k ∈ tags ∧ r = mk k.
Proof.
  unfold expand_rows. rewrite list_elem_of_omap. split.
  - intros (k & Hk%elem_of_py_range & Hr).
    destruct (decide (dst k ∈ tags)); [|done].
    injection Hr as <-. by exists k.
  - intros (k & Hk & Hin & ->). exists k.
    split; [by apply elem_of_py_range|]. by rewrite decide_True.
Qed.

Lemma elem_of_rung_rows ix tags rung r :
  r ∈ rung_rows ix tags rung ↔
  ∃ ctx, rung_ctx rung = Some ctx ∧
    ((∃ m, m ∈ Re.matches cop_re (rung_txt rung) ∧ r ∈ cop_rows ix tags ctx m)
     ∨ (∃ m, m ∈ Re.matches mov_re (rung_txt rung)
             ∧ r ∈ mov_rows ix tags ctx m)
     ∨ (∃ m, m ∈ Re.matches ffl_re (rung_txt rung)
             ∧ r ∈ ffl_rows ix tags ctx m)
     ∨ (∃ mp rows, mp ∈ rung_messages rung
                   ∧ msg_rows ix tags ctx mp = Some rows ∧ r ∈ rows)).
Proof.
  unfold rung_rows. destruct (rung_ctx rung) as [ctx|].
  - rewrite !elem_of_app, !list_elem_of_bind. split.
    + intros H. exists ctx. split; [done|].
      destruct H as [(m&?&?)|[(m&?&?)|[(m&?&?)|(mp&Hr&?)]]]; eauto 10.
      destruct (msg_rows ix tags ctx mp) as [rows|] eqn:E; simpl in Hr;
        [eauto 10|by apply elem_of_nil in Hr].
    + intros (ctx' & [= <-] & H).
      destruct H as [(m&?&?)|[(m&?&?)|[(m&?&?)|(mp&rows&?&E&?)]]]; eauto 10.
      do 3 right. exists mp. by rewrite E.
  - split; [by intros ?%elem_of_nil|]. by intros (? & ? & _).
Qed.

Lemma elem_of_sweep_rows ix om bc orig r :
  r ∈ sweep_rows ix om bc orig ↔
  let base := (split_index orig).1 in
  let idx := (split_index orig).2 in
  let dt := get_or_empty (dtype_map ix) base in
  ∃ bit c l,
    (dt = "INT" ∧ 0 <= bit <= 15 ∨ dt = "DINT" ∧ 0 <= bit <= 31) ∧
    om !! bit_name base idx bit = Some (c :: l) ∧
    r = row (bit_name base idx bit)
            (default (get_or_empty (base_desc_map ix) base)
                     (bc !! bit_name base idx bit))
            dt c "OTE" "".
Proof.
  unfold sweep_rows. cbv zeta.
  set (base := (split_index orig).1). set (idx := (split_index orig).2).
  set (dt := get_or_empty (dtype_map ix) base).
  destruct (decide (dt = "INT")) as [Hi|Hi];
    [|destruct (decide (dt = "DINT")) as [Hd|Hd]].
  - rewrite !(bool_decide_eq_true_2 _ Hi). cbn [negb orb].
    rewrite list_elem_of_omap. unfold sweep_row. split.
    + intros (bit & Hb%elem_of_py_range & Hr).
      destruct (om !! bit_name base idx bit) as [[|c l]|] eqn:E; try done.
      injection Hr as <-. exists bit, c, l. split_and!; [left; split; [done|lia]|done..].
    + intros (bit & c & l & Hb & E & ->). exists bit.
      split; [apply elem_of_py_range|by rewrite E].
      destruct Hb as [[_ ?]|[Hd ?]]; [lia|].
      rewrite Hi in Hd. discriminate.
  - rewrite (bool_decide_eq_false_2 _ Hi), (bool_decide_eq_true_2 _ Hd).
    cbn [negb orb].
    rewrite list_elem_of_omap. unfold sweep_row. split.
    + intros (bit & Hb%elem_of_py_range & Hr).
      destruct (om !! bit_name base idx bit) as [[|c l]|] eqn:E; try done.
      injection Hr as <-. exists bit, c, l. split_and!; [right; split; [done|lia]|done..].
    + intros (bit & c & l & Hb & E & ->). exists bit.
      split; [apply elem_of_py_range|by rewrite E].
      destruct Hb as [[? ?]|[_ ?]]; [done|lia].
  - rewrite (bool_decide_eq_false_2 _ Hi), (bool_decide_eq_false_2 _ Hd).
    cbn [negb orb].
    split; [by intros ?%elem_of_nil|].
    intros (bit & c & l & [[? _]|[? _]] & _); done.
Qed.

(** ** The table as a whole *)

Lemma collect_spec tags doc rows :
  collect tags doc = Some rows →
  ∃ st, scan_rungs (build_index (doc_tags doc)) tags (doc_rungs doc) = Some st
        ∧ ∀ r, r ∈ rows ↔
               table_row (build_index (doc_tags doc)) tags (doc_rungs doc) st r.
Proof.
  unfold collect. set (ix := build_index (doc_tags doc)).
  destruct (forallb tag_sort_key_ok (elements tags)); [|done].
  destruct (forallb (rung_ok ix tags) (doc_rungs doc)); [|done].
  cbn [negb].
  destruct (scan_rungs ix tags (doc_rungs doc)) as [st|] eqn:E; simpl; [|done].
  destruct (forallb (unmatched_ok ix st) _); [|done].
  intros [= <-]. exists st. split; [done|]. intros r.
  set (ts := stable_sort tag_leb (elements tags)).
  assert (∀ t, t ∈ ts ↔ t ∈ tags) as Hts.
  { intros t. unfold ts. by rewrite elem_of_stable_sort, elem_of_elements. }
  destruct (sweep_loop ix ts st) as (Ho & Hb & Hr & Hf).
  rewrite not_found_loop, Hr. unfold table_row.
  apply scan_rungs_spec in E as (_ & Hrec & _ & _). rewrite Hrec.
  rewrite list_elem_of_bind.
  split.
  - intros [[(rung & ? & ?)|(orig & ?%Hts & ? & ?)]|(tag & Ht%Hts & Hn & ->)].
    + left. by exists rung.
    + right; left. by exists orig.
    + right; right. exists tag. rewrite Hf in Hn. split_and!; [done| |  |done].
      * tauto.
      * destruct (sweep_rows ix (ote_map st) (bit_comments st) tag) eqn:Es;
          [done|]. exfalso. apply Hn. right. by apply Hts in Ht.
  - intros [(rung & ? & ?)|[(orig & ?%Hts & ? & ?)|(tag & ?%Hts & ? & Es & ->)]].
    + left; left. by exists rung.
    + left; right. by exists orig.
    + right. exists tag. split_and!; [done| |done].
      rewrite Hf. intros [?|[_ ?]]; done.
Qed.

Lemma extract_spec int_max col45 doc out :
  extract_mappings int_max col45 doc = Some out →
  let ix := build_index (doc_tags doc) in
  let tags : gset string := list_to_set col45 in
  ∃ st, scan_rungs ix tags (doc_rungs doc) = Some st
        ∧ (∀ r, r ∈ out ↔ table_row ix tags (doc_rungs doc) st r)
        ∧ NoDup out
        ∧ StronglySorted (λ r1 r2, row_leb r1 r2 = true) out.
Proof.
  unfold extract_mappings.
  destruct (collect (list_to_set col45) doc) as [rows|] eqn:E; simpl; [|done].
  intros (Hn & Hm & Hs)%consolidate_spec.
  apply collect_spec in E as (st & Hst & Hrows).
  exists st. split_and!; [done| |done..].
  intros r. by rewrite Hm.
Qed.

(** What the scan of a rung can append: a MOV row whose destination is
    the operand of the instruction as written, or a COP, CPS, FFL or
    MESSAGE row whose destination is bracketed. *)
Lemma rung_row_kind ix tags rung r :
  r ∈ rung_rows ix tags rung →
  Col45 r ∈ tags ∧
  ((Instruction r = "MOV" ∧
    ∃ m, m ∈ Re.matches mov_re (rung_txt rung) ∧ Re.grp 2 m = Col45 r)
   ∨ ((Instruction r = "COP" ∨ Instruction r = "CPS" ∨ Instruction r = "FFL"
       ∨ Instruction r = "MESSAGE") ∧ bracketed (Col45 r))).
Proof.
  intros (ctx & _ & H)%elem_of_rung_rows.
  destruct H as [(m & Hm & Hr)|[(m & Hm & Hr)|[(m & Hm & Hr)
                |(mp & rows & Hmp & Hrows & Hr)]]].
  - unfold cop_rows in Hr.
    apply elem_of_expand_rows in Hr as (k & _ & Hin & ->). simpl.
    split; [done|]. right. split; [|by eexists _, _].
    destruct (cop_instr _ _ Hm) as [-> | ->]; auto.
  - unfold mov_rows in Hr. destruct (decide (Re.grp 2 m ∈ tags)) as [Hin|];
      [|by apply elem_of_nil in Hr].
    apply list_elem_of_singleton in Hr as ->. simpl.
    split; [done|]. left. split; [done|]. by exists m.
  - unfold ffl_rows in Hr.
    destruct (control_len_map ix !! _) as [n|]; [|by apply elem_of_nil in Hr].
    apply elem_of_expand_rows in Hr as (k & _ & Hin & ->). simpl.
    split; [done|]. right. split; [auto|by eexists _, _].
  - unfold msg_rows in Hrows.
    destruct (falsy _ || falsy _).
    { injection Hrows as <-. by apply elem_of_nil in Hr. }
    destruct (py_int (RequestedLength mp)) as [len|]; simpl in Hrows; [|done].
    destruct (py_int_str _) as [li|]; simpl in Hrows; [|done].
    injection Hrows as <-.
    apply elem_of_expand_rows in Hr as (k & _ & Hin & ->). simpl.
    split; [done|]. right. split; [auto|by eexists _, _].
Qed.

Lemma elem_of_tags (col45 : list string) t :
  t ∈ (list_to_set col45 : gset string) ↔ t ∈ col45.
Proof. apply elem_of_list_to_set. Qed.

(** ** Completeness and phantom destinations *)

(** C1, as stated, fails: the monitored tag [B[0]] is an INT whose bit 5
    is driven by a coil; the table has the bit row [B[0].5] and no row
    whose destination is [B[0]]. *)
Lemma completeness_counterexample :
  extract_mappings int64_max ["B[0]"] doc_bits = Some out_bits
  ∧ "B[0]" ∈ ["B[0]"]
  ∧ ¬ ∃ r, r ∈ out_bits ∧ Col45 r = "B[0]".
Proof.
  split_and!; [by vm_compute|left|].
  intros (r & ->%list_elem_of_singleton & Hc). discriminate Hc.
Qed.

(** C1, amended: every monitored tag has a row whose destination is the
    tag, or a boolean-output row for one of the bits [base[idx].bit] of
    the tag, where [(base, idx) = split_index tag]. *)
Theorem completeness int_max col45 doc out tag :
  extract_mappings int_max col45 doc = Some out →
  tag ∈ col45 →
  (∃ r, r ∈ out ∧ Col45 r = tag)
  ∨ (∃ r bit, r ∈ out ∧ 0 <= bit <= 31 ∧ Instruction r = "OTE" ∧
              Col45 r = bit_name (split_index tag).1 (split_index tag).2 bit).
Proof.
  intros (st & Hst & Hrows & _)%extract_spec Hin. simpl in *.
  set (ix := build_index (doc_tags doc)) in *.
  apply elem_of_tags in Hin.
  destruct (scan_rungs_spec _ _ _ _ Hst) as (_ & Hrec & Hfound & _).
  destruct (decide (tag ∈ found_original_tags st)) as [Hf|Hf].
  - rewrite Hfound in Hf.
    apply elem_of_list_to_set, list_elem_of_fmap in Hf as (r & -> & Hr).
    left. exists r. split; [|done]. apply Hrows. left.
    rewrite Hrec in Hr. apply list_elem_of_bind in Hr as (rung & ? & ?).
    by exists rung.
  - destruct (sweep_rows ix (ote_map st) (bit_comments st) tag)
      as [|r0 rows] eqn:Es.
    + left. exists (not_found_row ix tag). split; [|done].
      apply Hrows. right; right. by exists tag.
    + assert (r0 ∈ sweep_rows ix (ote_map st) (bit_comments st) tag) as Hr0
        by (rewrite Es; left).
      right. destruct (proj1 (elem_of_sweep_rows _ _ _ _ _) Hr0)
        as (bit & c & l & Hb & _ & Er).
      exists r0, bit. split_and!; [|lia|lia|by rewrite Er..].
      apply Hrows. right; left. by exists tag.
Qed.

Lemma completeness_witness :
  extract_mappings int64_max ["B[0]"] doc_bits = Some out_bits
  ∧ ((∃ r, r ∈ out_bits ∧ Col45 r = "B[0]")
     ∨ (∃ r bit, r ∈ out_bits ∧ 0 <= bit <= 31 ∧ Instruction r = "OTE" ∧
                 Col45 r = bit_name (split_index "B[0]").1
                                    (split_index "B[0]").2 bit)).
Proof.
  split; [by vm_compute|].
  apply (completeness int64_max ["B[0]"] doc_bits out_bits "B[0]");
    [by vm_compute|left].
Defined.

(** C2, as stated, fails: the monitored set is [{Motor}], and the row of
    the table has the destination [Motor[0].31]. *)
Lemma no_phantom_counterexample :
  extract_mappings int64_max ["Motor"] doc_motor = Some out_motor
  ∧ ∃ r, r ∈ out_motor ∧ Col45 r ∉ ["Motor"].
Proof.
  split; [by vm_compute|]. eexists. split; [left|].
  intros [=]%list_elem_of_singleton.
Qed.

(** C2, amended: the destination of every row is a monitored tag, or
    the row is a boolean-output row for a bit [base[idx].bit] of a
    monitored tag, where [(base, idx) = split_index tag]. *)
Theorem no_phantom_destinations int_max col45 doc out r :
  extract_mappings int_max col45 doc = Some out →
  r ∈ out →
  Col45 r ∈ col45
  ∨ (Instruction r = "OTE" ∧
     ∃ tag bit, tag ∈ col45 ∧ 0 <= bit <= 31 ∧
       Col45 r = bit_name (split_index tag).1 (split_index tag).2 bit).
Proof.
  intros (st & Hst & Hrows & _)%extract_spec Hin. simpl in *.
  apply Hrows in Hin as [(rung & _ & Hr)|[(orig & Ho & _ & Hr)
                        |(tag & Ht & _ & _ & ->)]].
  - left. apply elem_of_tags. by apply rung_row_kind in Hr as [? _].
  - right. apply elem_of_sweep_rows in Hr as (bit & c & l & Hb & _ & ->).
    split; [done|]. exists orig, bit.
    split_and!; [by apply elem_of_tags|lia|lia|done].
  - left. by apply elem_of_tags.
Qed.

Lemma no_phantom_destinations_witness :
  extract_mappings int64_max ["Motor"] doc_motor = Some out_motor
  ∧ (Col45 (row "Motor[0].31" "" "DINT" (ex_ctx "7") "OTE" "") ∈ ["Motor"]
     ∨ (Instruction (row "Motor[0].31" "" "DINT" (ex_ctx "7") "OTE" "") = "OTE"
        ∧ ∃ tag bit, tag ∈ ["Motor"] ∧ 0 <= bit <= 31 ∧
            Col45 (row "Motor[0].31" "" "DINT" (ex_ctx "7") "OTE" "")
            = bit_name (split_index tag).1 (split_index tag).2 bit)).
Proof.
  split; [by vm_compute|].
  apply (no_phantom_destinations int64_max ["Motor"] doc_motor out_motor);
    [by vm_compute|left].
Defined.

(** ** Expansion of block copies and FIFO loads *)

Lemma rung_row_in_table int_max col45 doc out rung r :
  extract_mappings int_max col45 doc = Some out →
  rung ∈ doc_rungs doc →
  r ∈ rung_rows (build_index (doc_tags doc)) (list_to_set col45) rung →
  r ∈ out.
Proof.
  intros (st & _ & Hrows & _)%extract_spec Hrung Hr.
  apply Hrows. left. by exists rung.
Qed.

(** C3: for a block copy with source [S[a]], destination [D[b]] and
    length [n], and every [k] in [[0, n)], the row of a monitored
    [D[b+k]] is in the table with source [S[a+k]]; and the rows that the
    occurrence appends are these rows and no other, so that a
    destination outside the monitored set gives no row. *)
Theorem expansion_offset_law int_max col45 doc out rung ctx m S a D b :
  extract_mappings int_max col45 doc = Some out →
  rung ∈ doc_rungs doc →
  rung_ctx rung = Some ctx →
  m ∈ Re.matches cop_re (rung_txt rung) →
  split_index (Re.grp 2 m) = (S, a) →
  split_index (Re.grp 3 m) = (D, b) →
  let ix := build_index (doc_tags doc) in
  let n := digits_val (Re.grp 4 m) in
  let rec k := row (index_name D (b + k))
                   (get_or_empty (base_desc_map ix) D)
                   (get_or_empty (dtype_map ix) D) ctx
                   (Str.upper (Re.grp 1 m)) (index_name S (a + k)) in
  (∀ k, 0 <= k < n → index_name D (b + k) ∈ col45 → rec k ∈ out)
  ∧ (∀ st r,
       r ∈ records (cop_step ix (list_to_set col45) ctx st m) ↔
       r ∈ records st
       ∨ ∃ k, 0 <= k < n ∧ index_name D (b + k) ∈ col45 ∧ r = rec k).
Proof.
  intros Hex Hrung Hctx Hm HS HD ix n rec.
  assert (∀ r, r ∈ cop_rows ix (list_to_set col45) ctx m ↔
               ∃ k, 0 <= k < n ∧ index_name D (b + k) ∈ col45 ∧ r = rec k)
    as Hrows.
  { intros r. unfold cop_rows. rewrite elem_of_expand_rows, HS, HD. simpl.
    by setoid_rewrite elem_of_tags. }
  split.
  - intros k Hk Hin. eapply rung_row_in_table; [done..|].
    apply elem_of_rung_rows. exists ctx. split; [done|]. left.
    exists m. split; [done|]. apply Hrows. by exists k.
  - intros st r. rewrite cop_step_rows. simpl.
    by rewrite elem_of_app, Hrows.
Qed.

Lemma expansion_offset_law_witness :
  extract_mappings int64_max ["Y[0]"; "Y[1]"; "Y[2]"] doc_copy = Some out_copy
  ∧ row (index_name "Y" (0 + 1))
        (get_or_empty (base_desc_map (build_index (doc_tags doc_copy))) "Y")
        (get_or_empty (dtype_map (build_index (doc_tags doc_copy))) "Y")
        (ex_ctx "3") (Str.upper (Re.grp 1 m_copy)) (index_name "Z" (5 + 1))
      ∈ out_copy.
Proof.
  split; [by vm_compute|].
  apply (proj1 (expansion_offset_law int64_max ["Y[0]"; "Y[1]"; "Y[2]"]
                  doc_copy out_copy (ex_rung "3" "XIC(Go)COP(Z[5],Y[0],3);")
                  (ex_ctx "3") m_copy "Z" 5 "Y" 0
                  ltac:(by vm_compute) ltac:(left) ltac:(reflexivity)
                  ltac:(vm_compute; left) ltac:(by vm_compute)
                  ltac:(by vm_compute)) 1).
  - by vm_compute.
  - vm_compute. right; left.
Defined.

(** C4, as stated, fails: the FIFO load has source [S[3]] and a control
    of length 2; the row of its second element [D[1]] has the source
    [S[3]], not [S[4]]. *)
Lemma fifo_source_counterexample :
  extract_mappings int64_max ["D[0]"; "D[1]"] doc_fifo = Some out_fifo
  ∧ split_index "S[3]" = ("S", 3)
  ∧ control_len_map (build_index (doc_tags doc_fifo)) !! "Ctl" = Some 2
  ∧ ¬ ∃ r, r ∈ out_fifo ∧ Col45 r = index_name "D" (0 + 1)
           ∧ Source r = index_name "S" (3 + 1).
Proof.
  split_and!; [by vm_compute..|].
  intros (r & Hin & Hc & Hs).
  apply elem_of_cons in Hin as [->|Hin]; [discriminate Hc|].
  apply list_elem_of_singleton in Hin as ->. discriminate Hs.
Qed.

(** C4, amended: for a FIFO load with source operand [src], destination
    [D[b]] and a control whose length resolves to [n], the row of every
    monitored [D[b+k]] with [k] in [[0, n)] is in the table with the
    source operand [src] as written, whatever [k] is; the occurrence
    appends these rows and no other. *)
Theorem fifo_source_verbatim int_max col45 doc out rung ctx m D b n :
  extract_mappings int_max col45 doc = Some out →
  rung ∈ doc_rungs doc →
  rung_ctx rung = Some ctx →
  m ∈ Re.matches ffl_re (rung_txt rung) →
  split_index (Re.grp 2 m) = (D, b) →
  control_len_map (build_index (doc_tags doc)) !! strip_index (Re.grp 3 m)
    = Some n →
  let ix := build_index (doc_tags doc) in
  let rec k := row (index_name D (b + k))
                   (get_or_empty (base_desc_map ix) D)
                   (get_or_empty (dtype_map ix) D) ctx
                   "FFL" (Re.grp 1 m) in
  (∀ k, 0 <= k < n → index_name D (b + k) ∈ col45 → rec k ∈ out)
  ∧ (∀ st r,
       r ∈ records (ffl_step ix (list_to_set col45) ctx st m) ↔
       r ∈ records st
       ∨ ∃ k, 0 <= k < n ∧ index_name D (b + k) ∈ col45 ∧ r = rec k).
Proof.
  intros Hex Hrung Hctx Hm HD Hlen ix rec.
  assert (∀ r, r ∈ ffl_rows ix (list_to_set col45) ctx m ↔
               ∃ k, 0 <= k < n ∧ index_name D (b + k) ∈ col45 ∧ r = rec k)
    as Hrows.
  { intros r. unfold ffl_rows, ix. rewrite Hlen.
    rewrite elem_of_expand_rows, HD. simpl.
    by setoid_rewrite elem_of_tags. }
  split.
  - intros k Hk Hin. eapply rung_row_in_table; [done..|].
    apply elem_of_rung_rows. exists ctx. split; [done|]. right; right; left.
    exists m. split; [done|]. apply Hrows. by exists k.
  - intros st r. rewrite ffl_step_rows. simpl.
    by rewrite elem_of_app, Hrows.
Qed.

Lemma fifo_source_verbatim_witness :
  extract_mappings int64_max ["D[0]"; "D[1]"] doc_fifo = Some out_fifo
  ∧ row (index_name "D" (0 + 1))
        (get_or_empty (base_desc_map (build_index (doc_tags doc_fifo))) "D")
        (get_or_empty (dtype_map (build_index (doc_tags doc_fifo))) "D")
        (ex_ctx "4") "FFL" (Re.grp 1 m_fifo)
      ∈ out_fifo.
Proof.
  split; [by vm_compute|].
  apply (proj1 (fifo_source_verbatim int64_max ["D[0]"; "D[1]"]
                  doc_fifo out_fifo
                  (ex_rung "4" "XIC(Go)FFL(S[3],D[0],Ctl,2,0);")
                  (ex_ctx "4") m_fifo "D" 0 2
                  ltac:(by vm_compute) ltac:(left) ltac:(reflexivity)
                  ltac:(vm_compute; left) ltac:(by vm_compute)
                  ltac:(by vm_compute)) 1).
  - by vm_compute.
  - vm_compute. right; left.
Defined.

(** ** Unknown lengths *)







(** ** Integers and their text: conversions *)

Lemma append_nil_r s : s +:+ EmptyString = s.
Proof. induction s as [|c s IH]; [done|]. unfold String.app in *. simpl. by rewrite IH. Qed.

Lemma append_assoc s1 s2 s3 : (s1 +:+ s2) +:+ s3 = s1 +:+ s2 +:+ s3.
Proof.
  induction s1 as [|c s1 IH]; [done|].
  unfold String.app in *. simpl. by rewrite IH.
Qed.

Lemma append_cons c s1 s2 : String c s1 +:+ s2 = String c (s1 +:+ s2).
Proof. done. Qed.

Lemma forallb_append p s1 s2 :
  Str.forallb p (s1 +:+ s2) = Str.forallb p s1 && Str.forallb p s2.
Proof.
  induction s1 as [|c s1 IH]; [done|].
  rewrite append_cons. simpl. rewrite IH. by rewrite andb_assoc.
Qed.

Lemma digits_val_from_append a s1 s2 :
  digits_val_from a (s1 +:+ s2) = digits_val_from (digits_val_from a s1) s2.
Proof.
  revert a. induction s1 as [|c s1 IH]; intros a; [done|].
  rewrite append_cons. simpl. apply IH.
Qed.

Lemma of_digit_spec d :
  0 <= d < 10 →
  Chr.is_digit (Chr.of_digit d) = true ∧ Chr.digit_val (Chr.of_digit d) = d.
Proof.
  intros Hd.
  assert (d = 0 ∨ d = 1 ∨ d = 2 ∨ d = 3 ∨ d = 4 ∨ d = 5 ∨ d = 6 ∨ d = 7
          ∨ d = 8 ∨ d = 9) as H by lia.
  repeat (destruct H as [->|H]; [done|]). by subst.
Qed.

Lemma nat_digits_S fuel n acc :
  nat_digits (S fuel) n acc =
  if n / 10 =? 0 then String (Chr.of_digit (n mod 10)) acc
  else nat_digits fuel (n / 10) (String (Chr.of_digit (n mod 10)) acc).
Proof. done. Qed.

(** The digits that [nat_digits] writes in front of [acc]. *)
Lemma nat_digits_spec fuel n acc :
  0 <= n < 10 ^ Z.of_nat (S fuel) →
  ∃ ds, nat_digits (S fuel) n acc = ds +:+ acc ∧ ds ≠ EmptyString ∧
        Str.forallb Chr.is_digit ds = true ∧
        ∀ a, digits_val_from a ds = a * 10 ^ Z.of_nat (String.length ds) + n.
Proof.
  revert n acc. induction fuel as [|fuel IH]; intros n acc Hn;
    rewrite nat_digits_S;
    (destruct (of_digit_spec (n mod 10)) as [Hd Hv];
     [by apply Z.mod_pos_bound|]).
  - assert (n / 10 = 0) as -> by (apply Z.div_small; simpl in Hn; lia).
    simpl. exists (String (Chr.of_digit (n mod 10)) EmptyString).
    split_and!; [done|done|by simpl; rewrite Hd|].
    intros a. simpl. rewrite Hv.
    assert (n mod 10 = n) by (rewrite Z.mod_small; simpl in Hn; lia). lia.
  - destruct (Z.eqb_spec (n / 10) 0) as [Hq|Hq].
    + exists (String (Chr.of_digit (n mod 10)) EmptyString).
      split_and!; [done|done|by simpl; rewrite Hd|].
      intros a. simpl. rewrite Hv.
      assert (n < 10) by (apply Z.div_small_iff in Hq; lia).
      assert (n mod 10 = n) by (rewrite Z.mod_small; lia). lia.
    + destruct (IH (n / 10) (String (Chr.of_digit (n mod 10)) acc))
        as (ds & E & Hne & Hdig & Hval).
      { rewrite (Nat2Z.inj_succ (S fuel)), Z.pow_succ_r in Hn by lia.
        split; [apply Z.div_pos; lia|].
        apply Z.div_lt_upper_bound; lia. }
      exists (ds +:+ String (Chr.of_digit (n mod 10)) EmptyString).
      split_and!.
      * by rewrite E, append_assoc.
      * by destruct ds.
      * rewrite forallb_append, Hdig. simpl. by rewrite Hd.
      * intros a. rewrite digits_val_from_append, Hval. simpl. rewrite Hv.
        assert (String.length
                  (ds +:+ String (Chr.of_digit (n mod 10)) EmptyString)
                = S (String.length ds)) as ->.
        { clear. induction ds as [|c ds IH]; [done|].
          rewrite append_cons. simpl. by rewrite IH. }
        rewrite Nat2Z.inj_succ, Z.pow_succ_r by lia.
        pose proof (Z.div_mod n 10). lia.
Qed.

Lemma log2_fuel n : 0 <= n → n < 10 ^ Z.of_nat (S (Z.to_nat (Z.log2 n))).
Proof.
  intros Hn. rewrite Nat2Z.inj_succ, Z2Nat.id by apply Z.log2_nonneg.
  destruct (Z.eq_dec n 0) as [->|Hne]; [done|].
  pose proof (Z.log2_spec n ltac:(lia)) as [_ Hlt].
  eapply Z.lt_le_trans; [exact Hlt|].
  apply Z.pow_le_mono_l. pose proof (Z.log2_nonneg n). lia.
Qed.

(** The text of a natural number is a non-empty run of digits whose
    value is the number. *)
Lemma py_str_digits n :
  0 <= n →
  py_str n ≠ EmptyString ∧ Str.forallb Chr.is_digit (py_str n) = true ∧
  digits_val (py_str n) = n.
Proof.
  intros Hn. unfold py_str.
  destruct (Z.ltb_spec n 0) as [?|_]; [lia|].
  destruct (nat_digits_spec (Z.to_nat (Z.log2 n)) n EmptyString)
    as (ds & E & Hne & Hdig & Hval).
  { split; [done|by apply log2_fuel]. }
  rewrite E, append_nil_r. split_and!; [done..|].
  unfold digits_val. rewrite Hval. lia.
Qed.

Lemma rev_app_rev_app s1 s2 s3 :
  String.rev_app (String.rev_app s1 s2) s3 = String.rev_app s2 (s1 +:+ s3).
Proof.
  revert s2. induction s1 as [|c s1 IH]; intros s2; [done|].
  simpl. by rewrite IH.
Qed.

Lemma rev_rev s : String.rev (String.rev s) = s.
Proof. unfold String.rev. by rewrite rev_app_rev_app, append_nil_r. Qed.

Lemma forallb_rev_app p s1 s2 :
  Str.forallb p (String.rev_app s1 s2) = Str.forallb p s1 && Str.forallb p s2.
Proof.
  revert s2. induction s1 as [|c s1 IH]; intros s2; [done|].
  simpl. rewrite IH. simpl. by destruct (p c), (Str.forallb p s1).
Qed.

Lemma lstrip_no_space s :
  Str.forallb (λ c, negb (Chr.is_space c)) s = true → Str.lstrip s = s.
Proof.
  destruct s as [|c s]; [done|]. simpl.
  by destruct (Chr.is_space c).
Qed.

(** [strip] leaves a string without white space as it is. *)
Lemma strip_no_space s :
  Str.forallb (λ c, negb (Chr.is_space c)) s = true → Str.strip s = s.
Proof.
  intros H. unfold Str.strip. rewrite (lstrip_no_space s H).
  rewrite lstrip_no_space; [apply rev_rev|].
  unfold String.rev. by rewrite forallb_rev_app, H.
Qed.

Lemma forallb_impl (p q : ascii → bool) s :
  (∀ c, p c = true → q c = true) →
  Str.forallb p s = true → Str.forallb q s = true.
Proof.
  intros Hpq. induction s as [|c s IH]; [done|]. simpl.
  intros [Hc Hs]%andb_true_iff. by rewrite (Hpq c Hc), IH.
Qed.

Lemma append_length s1 s2 :
  String.length (s1 +:+ s2) = (String.length s1 + String.length s2)%nat.
Proof.
  induction s1 as [|c s1 IH]; [done|]. rewrite append_cons. simpl.
  by rewrite IH.
Qed.

(** The text of a positive number has no leading zero: with [d] digits,
    the number is at least [10 ^ (d - 1)]. *)
Lemma nat_digits_length fuel n acc :
  0 < n < 10 ^ Z.of_nat (S fuel) →
  ∃ ds, nat_digits (S fuel) n acc = ds +:+ acc ∧
        10 ^ Z.of_nat (String.length ds) <= 10 * n.
Proof.
  revert n acc. induction fuel as [|fuel IH]; intros n acc Hn;
    rewrite nat_digits_S.
  - assert (n / 10 = 0) as -> by (apply Z.div_small; simpl in Hn; lia).
    simpl. exists (String (Chr.of_digit (n mod 10)) EmptyString).
    split; [done|]. simpl. lia.
  - destruct (Z.eqb_spec (n / 10) 0) as [Hq|Hq].
    + exists (String (Chr.of_digit (n mod 10)) EmptyString).
      split; [done|]. simpl. lia.
    + assert (0 <= n / 10) by (apply Z.div_pos; lia).
      destruct (IH (n / 10) (String (Chr.of_digit (n mod 10)) acc))
        as (ds & E & Hlen).
      { rewrite (Nat2Z.inj_succ (S fuel)), Z.pow_succ_r in Hn by lia.
        split; [lia|]. apply Z.div_lt_upper_bound; lia. }
      exists (ds +:+ String (Chr.of_digit (n mod 10)) EmptyString).
      split; [by rewrite E, append_assoc|].
      rewrite append_length. simpl String.length.
      replace (String.length ds + 1)%nat with (S (String.length ds)) by lia.
      rewrite Nat2Z.inj_succ, Z.pow_succ_r by lia.
      pose proof (Z.div_mod n 10). pose proof (Z.mod_pos_bound n 10). lia.
Qed.

Lemma py_str_length n :
  0 < n → 10 ^ Z.of_nat (String.length (py_str n)) <= 10 * n.
Proof.
  intros Hn. unfold py_str.
  destruct (Z.ltb_spec n 0) as [?|_]; [lia|].
  destruct (nat_digits_length (Z.to_nat (Z.log2 n)) n EmptyString)
    as (ds & E & Hlen).
  { split; [done|apply log2_fuel; lia]. }
  by rewrite E, append_nil_r.
Qed.

(** An f-string can write every natural number below [10 ^ 4300]. *)
Lemma str_ok_below n : 0 <= n < 10 ^ 4300 → str_ok n = true.
Proof.
  intros [Hn Hlt]. unfold str_ok. rewrite Z.abs_eq by done.
  destruct (Z.eq_dec n 0) as [->|Hne]; [by vm_compute|].
  apply Nat.leb_le.
  pose proof (py_str_length n ltac:(lia)) as Hlen.
  destruct (Nat.le_gt_cases (String.length (py_str n)) int_max_str_digits)
    as [?|Hgt]; [done|exfalso].
  assert (10 ^ 4301 <= 10 ^ Z.of_nat (String.length (py_str n))) as Hpow.
  { apply Z.pow_le_mono_r; [lia|].
    change 4301 with (Z.of_nat (S int_max_str_digits)). lia. }
  change 4301 with (Z.succ 4300) in Hpow.
  rewrite Z.pow_succ_r in Hpow by done.
  revert Hlt Hlen Hpow. generalize (10 ^ 4300).
  generalize (10 ^ Z.of_nat (String.length (py_str n))). lia.
Qed.

(** An index of 4300 digits is converted; with one digit more,
    [split_index] raises and the run ends, though the copy has no
    element. *)
Lemma long_index_raises :
  extract_mappings int64_max ["B[0]"] (doc_long_index 4300)
  = Some [row "B[0]" "" "" (Some "", Some "", Some "") "Not Found" ""]
  ∧ extract_mappings int64_max ["B[0]"] (doc_long_index 4301) = None.
Proof. split; by vm_compute. Qed.

Lemma count_all p s :
  Str.forallb p s = true → Str.count p s = String.length s.
Proof.
  induction s as [|c s IH]; [done|]. simpl.
  intros [-> Hs]%andb_true_iff. by rewrite IH.
Qed.

Lemma contains_append c s1 s2 :
  Str.contains c (s1 +:+ s2) = Str.contains c s1 || Str.contains c s2.
Proof.
  induction s1 as [|a s1 IH]; [done|].
  rewrite ?append_cons. simpl. rewrite IH. by rewrite orb_assoc.
Qed.

Lemma digits_no_bracket ds :
  Str.forallb Chr.is_digit ds = true → Str.contains "[" ds = false.
Proof.
  induction ds as [|c ds IH]; [done|]. simpl.
  intros [Hc Hs]%andb_true_iff. rewrite (IH Hs), orb_false_r.
  apply bool_decide_eq_false. intros ->. done.
Qed.

(** A character that is no digit is not in a run of digits. *)
Lemma digits_no_char c ds :
  Chr.is_digit c = false → Str.forallb Chr.is_digit ds = true →
  Str.contains c ds = false.
Proof.
  intros Hc. induction ds as [|a ds IH]; [done|]. simpl.
  intros [Ha Hs]%andb_true_iff. rewrite (IH Hs), orb_false_r.
  apply bool_decide_eq_false. intros ->. congruence.
Qed.

(** A text is cut in one way at the last occurrence of a character. *)
Lemma cut_last c s1 t1 s2 t2 :
  Str.contains c t1 = false → Str.contains c t2 = false →
  s1 +:+ String c t1 = s2 +:+ String c t2 → s1 = s2 ∧ t1 = t2.
Proof.
  intros H1 H2. revert s2.
  induction s1 as [|a s1 IH]; intros [|a' s2]; rewrite ?append_cons.
  - change (EmptyString +:+ ?x) with x. by intros [= ->].
  - change (EmptyString +:+ ?x) with x. intros [= <- E].
    rewrite E, contains_append in H1. simpl in H1.
    rewrite bool_decide_eq_true_2, orb_true_r in H1; done.
  - change (EmptyString +:+ ?x) with x. intros [= -> E].
    rewrite <- E, contains_append in H2. simpl in H2.
    rewrite bool_decide_eq_true_2, orb_true_r in H2; done.
  - intros [= <- E]. by destruct (IH _ E) as [-> ->].
Qed.

Lemma py_str_neg n : n < 0 → py_str n = String "-" (py_str (- n)).
Proof.
  intros Hn. unfold py_str. rewrite (proj2 (Z.ltb_lt n 0)) by done.
  destruct (Z.ltb_spec (- n) 0); [lia|done].
Qed.

(** The text of an integer has its digits and, before them, its sign. *)
Lemma py_str_no_char c n :
  Chr.is_digit c = false → c ≠ "-"%char → Str.contains c (py_str n) = false.
Proof.
  intros Hc Hm. destruct (Z.ltb_spec n 0) as [Hn|Hn].
  - rewrite py_str_neg by done. simpl.
    destruct (py_str_digits (- n)) as (_ & Hd & _); [lia|].
    rewrite (digits_no_char c _ Hc Hd), orb_false_r.
    apply bool_decide_eq_false. congruence.
  - destruct (py_str_digits n Hn) as (_ & Hd & _).
    by apply digits_no_char.
Qed.

(** Two integers with the same text are equal. *)
Lemma py_str_inj n m : py_str n = py_str m → n = m.
Proof.
  assert (∀ a b, a < 0 → 0 <= b → py_str a ≠ py_str b) as Hmixed.
  { intros a b Ha Hb E. rewrite py_str_neg in E by done.
    destruct (py_str_digits b Hb) as (_ & Hd & _). rewrite <- E in Hd.
    discriminate Hd. }
  intros E.
  destruct (Z.ltb_spec n 0) as [Hn|Hn], (Z.ltb_spec m 0) as [Hm|Hm].
  - rewrite (py_str_neg n), (py_str_neg m) in E by done. injection E as E.
    destruct (py_str_digits (- n)) as (_ & _ & Hv); [lia|].
    destruct (py_str_digits (- m)) as (_ & _ & Hv'); [lia|].
    rewrite E in Hv. lia.
  - by destruct (Hmixed n m).
  - by destruct (Hmixed m n).
  - destruct (py_str_digits n Hn) as (_ & _ & Hv).
    destruct (py_str_digits m Hm) as (_ & _ & Hv').
    rewrite E in Hv. lia.
Qed.

(** The name of a bit tells its base, its index and its number. *)
Lemma bit_name_inj base idx bit base' idx' bit' :
  bit_name base idx bit = bit_name base' idx' bit' →
  base = base' ∧ idx = idx' ∧ bit = bit'.
Proof.
  unfold bit_name. intros E.
  assert (∀ b i k, b +:+ "[" +:+ py_str i +:+ "]." +:+ py_str k
                   = (b +:+ "[" +:+ py_str i +:+ "]")
                       +:+ String "." (py_str k)) as Hcut.
  { intros b i k. by rewrite !append_assoc. }
  rewrite !Hcut in E.
  apply cut_last in E as [E Ebit]; [|by apply py_str_no_char..].
  apply py_str_inj in Ebit.
  change (?b +:+ "[" +:+ ?x +:+ "]") with (b +:+ String "[" (x +:+ "]")) in E.
  apply cut_last in E as [Ebase E];
    [|rewrite contains_append, py_str_no_char by done; done..].
  change (?x +:+ "]") with (x +:+ String "]" EmptyString) in E.
  apply cut_last in E as [E _]; [|done..].
  by apply py_str_inj in E.
Qed.

(** ** The bit sweep *)

Lemma coil_contexts_cons rung rungs operand :
  coil_contexts (rung :: rungs) operand =
  coil_contexts_rung operand rung ++ coil_contexts rungs operand.
Proof. done. Qed.

(** The first occurrence of an operand as a coil is on the first rung
    that drives it. *)
Lemma coil_contexts_head rungs operand c l :
  Forall (λ rung, is_Some (rung_ctx rung)) rungs →
  coil_contexts rungs operand = c :: l →
  ∃ rungs1 rung rungs2,
    rungs = rungs1 ++ rung :: rungs2 ∧
    operand ∈ coil_operands rung ∧
    (∀ rung', rung' ∈ rungs1 → operand ∉ coil_operands rung') ∧
    rung_ctx rung = Some c.
Proof.
  induction 1 as [|rung rungs [ctx Hctx] _ IH]; [done|].
  rewrite coil_contexts_cons. unfold coil_contexts_rung. rewrite Hctx.
  destruct (filter (λ o, o = operand) (coil_operands rung)) as [|o os] eqn:E.
  - simpl. intros (rungs1 & rung' & rungs2 & -> & Hop & Hfirst & Hc)%IH.
    exists (rung :: rungs1), rung', rungs2. split_and!; [done..| |done].
    intros r' [->|?]%elem_of_cons; [|by apply Hfirst].
    intros Hin. assert (operand ∈ filter (λ o, o = operand) (coil_operands rung))
      as Hf by (by apply list_elem_of_filter).
    rewrite E in Hf. by apply elem_of_nil in Hf.
  - simpl. intros [= <- _].
    exists [], rung, rungs. split_and!; [done| |by intros ? ?%elem_of_nil|done].
    assert (o ∈ filter (λ o, o = operand) (coil_operands rung)) as Hf
      by (rewrite E; left).
    by apply list_elem_of_filter in Hf as [-> ?].
Qed.

Lemma coil_contexts_nil rungs operand :
  (∀ rung, rung ∈ rungs → operand ∉ coil_operands rung) →
  coil_contexts rungs operand = [].
Proof.
  induction rungs as [|rung rungs IH]; intros H; [done|].
  rewrite coil_contexts_cons, IH; [|intros; apply H; by right].
  rewrite app_nil_r. unfold coil_contexts_rung.
  destruct (rung_ctx rung); [|done].
  destruct (filter (λ o, o = operand) (coil_operands rung)) as [|o os] eqn:E;
    [done|].
  assert (o ∈ filter (λ o, o = operand) (coil_operands rung)) as Hf
    by (rewrite E; left).
  apply list_elem_of_filter in Hf as [-> Hin]. exfalso.
  by apply (H rung); [left|].
Qed.

Lemma ote_map_list (om : gmap string (list Context)) operand c l :
  om !! operand = Some (c :: l) → ote_list om operand = c :: l.
Proof. unfold ote_list. by intros ->. Qed.

Lemma rung_row_not_ote ix tags rung r :
  r ∈ rung_rows ix tags rung →
  Instruction r ≠ "OTE" ∧ Instruction r ≠ "Not Found".
Proof.
  intros [_ [[-> _]|[[->|[->|[->| ->]]] _]]]%rung_row_kind; by split.
Qed.

(** A row of kind OTE comes from the sweep. *)
Lemma ote_row_inv ix tags rungs st r :
  table_row ix tags rungs st r → Instruction r = "OTE" →
  ∃ orig, orig ∈ tags ∧ (orig ∉ found_original_tags st) ∧
          r ∈ sweep_rows ix (ote_map st) (bit_comments st) orig.
Proof.
  intros [(rung & _ & Hr)|[H|(tag & _ & _ & _ & ->)]] Hi; [|done|done].
  apply rung_row_not_ote in Hr as [? _]. done.
Qed.

(** C6, as stated, fails: the monitored tag [B[0].5] is itself written
    [base[index].bit]; no rung has a coil on it, and the table has a
    record with that destination, of the "Not Found" kind. *)
Lemma bit_sweep_gating_counterexample :
  extract_mappings int64_max ["B[0].5"] doc_bit_read = Some out_bit_read
  ∧ ∃ r, r ∈ out_bit_read ∧ Col45 r = bit_name "B" 0 5
         ∧ ∀ rung, rung ∈ doc_rungs doc_bit_read →
                   Col45 r ∉ coil_operands rung.
Proof.
  split; [by vm_compute|]. eexists. split_and!; [left|by vm_compute|].
  intros rung ->%list_elem_of_singleton.
  apply (bool_decide_unpack _); by vm_compute.
Qed.

(** C6, amended: a boolean-output (OTE) row is in the table only if the
    text of some rung has an OTE on exactly its destination operand.
    And for a monitored tag that the scan left unmatched and none of
    whose bits is driven by an OTE, the table has the "Not Found" row of
    the tag, has no boolean-output row with a destination
    [base[idx].bit], whatever the number [bit] is, and every row whose
    destination is the tag is that "Not Found" row or a boolean-output
    row (which, by the first part, an OTE drives). The bits of a tag
    are the operands [base[idx].bit] that the sweep looks up: the bits
    0 to 15 of an INT and 0 to 31 of a DINT, where
    [(base, idx) = split_index tag]; a tag of another type has none. *)
Theorem bit_sweep_gating int_max col45 doc out :
  extract_mappings int_max col45 doc = Some out →
  let ix := build_index (doc_tags doc) in
  (∀ r, r ∈ out → Instruction r = "OTE" →
        ∃ rung, rung ∈ doc_rungs doc ∧ Col45 r ∈ coil_operands rung)
  ∧ (∀ st tag,
       scan_rungs ix (list_to_set col45) (doc_rungs doc) = Some st →
       tag ∈ col45 →
       tag ∉ found_original_tags st →
       let base := (split_index tag).1 in
       let idx := (split_index tag).2 in
       let dt := get_or_empty (dtype_map ix) base in
       (∀ bit rung,
          dt = "INT" ∧ 0 <= bit <= 15 ∨ dt = "DINT" ∧ 0 <= bit <= 31 →
          rung ∈ doc_rungs doc →
          bit_name base idx bit ∉ coil_operands rung) →
       not_found_row ix tag ∈ out
       ∧ (∀ r bit, r ∈ out → Instruction r = "OTE" →
            Col45 r ≠ bit_name base idx bit)
       ∧ (∀ r, r ∈ out → Col45 r = tag →
            r = not_found_row ix tag ∨ Instruction r = "OTE")).
Proof.
  intros (st & Hst & Hrows & _)%extract_spec ix. simpl in Hst, Hrows.
  fold ix in Hst, Hrows.
  destruct (scan_rungs_spec _ _ _ _ Hst) as (HF & Hrec & Hfound & Hote).
  assert (∀ r, r ∈ out → Instruction r = "OTE" →
               ∃ rung, rung ∈ doc_rungs doc ∧ Col45 r ∈ coil_operands rung)
    as Hgate.
  { intros r Hin Hi. apply Hrows in Hin.
    destruct (ote_row_inv _ _ _ _ _ Hin Hi) as (orig & _ & _ & Hr).
    apply elem_of_sweep_rows in Hr as (bit & c & l & _ & Hom & ->). simpl.
    apply ote_map_list in Hom. rewrite Hote in Hom.
    apply coil_contexts_head in Hom as (r1 & rung & r2 & E & Hop & _); [|done].
    exists rung. split; [|done]. rewrite E. apply elem_of_app. right. left. }
  split; [done|].
  intros st' tag Hst' Htag Hnf base idx dt Hbits.
  rewrite Hst in Hst'. injection Hst' as <-.
  assert (sweep_rows ix (ote_map st) (bit_comments st) tag = []) as Hnil.
  { destruct (sweep_rows _ _ _ tag) as [|r0 rows] eqn:E; [done|].
    assert (r0 ∈ sweep_rows ix (ote_map st) (bit_comments st) tag) as Hr0
      by (rewrite E; left).
    apply elem_of_sweep_rows in Hr0 as (bit & c & l & Hb & Hom & _).
    apply ote_map_list in Hom. rewrite Hote in Hom.
    rewrite coil_contexts_nil in Hom; [done|]. intros rung ?.
    by apply Hbits. }
  split_and!.
  - apply Hrows. right; right. exists tag.
    split_and!; [by apply elem_of_tags|done..].
  - intros r bit Hin Hi Hc.
    destruct (Hgate r Hin Hi) as (rung & Hrung & Hop).
    apply Hrows in Hin.
    destruct (ote_row_inv _ _ _ _ _ Hin Hi) as (orig & _ & _ & Hr).
    apply elem_of_sweep_rows in Hr as (bit' & c & l & Hb & _ & ->).
    simpl in Hc, Hop. apply bit_name_inj in Hc as (Hbase & Hidx & ->).
    rewrite Hbase, Hidx in Hop. rewrite Hbase in Hb.
    by apply (Hbits bit rung).
  - intros r Hin Hc. apply Hrows in Hin.
    destruct Hin as [(rung & Hrung & Hr)|[(orig & _ & _ & Hr)
                    |(tag' & _ & _ & _ & ->)]].
    + exfalso. apply Hnf. rewrite Hfound, Hrec.
      apply elem_of_list_to_set, list_elem_of_fmap. exists r.
      split; [done|]. apply list_elem_of_bind. by exists rung.
    + right. by apply elem_of_sweep_rows in Hr as (bit & c & l & _ & _ & ->).
    + left. simpl in Hc. by rewrite Hc.
Qed.

Lemma bit_sweep_gating_witness :
  (∀ r, r ∈ out_two_coils → Instruction r = "OTE" →
        ∃ rung, rung ∈ doc_rungs doc_two_coils ∧ Col45 r ∈ coil_operands rung)
  ∧ not_found_row (build_index (doc_tags doc_high_bit)) "B[0]" ∈ out_high_bit
  ∧ (∀ r, r ∈ out_high_bit → Col45 r = "B[0]" →
          r = not_found_row (build_index (doc_tags doc_high_bit)) "B[0]"
          ∨ Instruction r = "OTE").
Proof.
  split.
  - apply (bit_sweep_gating int64_max ["B[0]"] doc_two_coils out_two_coils).
    by vm_compute.
  - destruct (bit_sweep_gating int64_max ["B[0]"] doc_high_bit out_high_bit)
      as [_ H]; [by vm_compute|].
    assert (∃ st, scan_rungs (build_index (doc_tags doc_high_bit))
                    (list_to_set ["B[0]"]) (doc_rungs doc_high_bit) = Some st
                  ∧ "B[0]" ∉ found_original_tags st) as (st & Hst & Hnf).
    { eexists. split; [vm_compute; reflexivity|by vm_compute]. }
    pose proof (H st "B[0]" Hst ltac:(left) Hnf) as H2. cbv zeta in H2.
    destruct H2 as (Hrow & _ & Honly); [|by split].
    intros bit rung Hb ->%list_elem_of_singleton.
    destruct Hb as [[_ Hbit]|[Hdt _]]; [|by vm_compute in Hdt].
    assert (bit = 0 ∨ bit = 1 ∨ bit = 2 ∨ bit = 3 ∨ bit = 4 ∨ bit = 5
            ∨ bit = 6 ∨ bit = 7 ∨ bit = 8 ∨ bit = 9 ∨ bit = 10 ∨ bit = 11
            ∨ bit = 12 ∨ bit = 13 ∨ bit = 14 ∨ bit = 15) as Hcases by lia.
    repeat (destruct Hcases as [->|Hcases];
            [apply (bool_decide_unpack _); by vm_compute|]).
    subst bit. apply (bool_decide_unpack _); by vm_compute.
Defined.

(** C7: a boolean-output row has an empty source, and its program,
    routine and rung are those of the first rung, in scan order, whose
    text has an OTE on the destination operand, whatever rungs drive the
    operand later; [ote_map] itself holds every occurrence, in scan
    order. *)
Theorem first_coil_attribution int_max col45 doc out r :
  extract_mappings int_max col45 doc = Some out →
  r ∈ out →
  Instruction r = "OTE" →
  Source r = ""
  ∧ (∃ rungs1 rung rungs2,
       doc_rungs doc = rungs1 ++ rung :: rungs2 ∧
       Col45 r ∈ coil_operands rung ∧
       (∀ rung', rung' ∈ rungs1 → Col45 r ∉ coil_operands rung') ∧
       rung_ctx rung = Some (Program r, Routine r, Rung r))
  ∧ (∃ st,
       scan_rungs (build_index (doc_tags doc)) (list_to_set col45)
                  (doc_rungs doc) = Some st ∧
       ∀ operand,
         ote_list (ote_map st) operand
         = coil_contexts (doc_rungs doc) operand).
Proof.
  intros (st & Hst & Hrows & _)%extract_spec Hin Hi. simpl in Hst, Hrows.
  destruct (scan_rungs_spec _ _ _ _ Hst) as (HF & _ & _ & Hote).
  apply Hrows in Hin.
  destruct (ote_row_inv _ _ _ _ _ Hin Hi) as (orig & _ & _ & Hr).
  apply elem_of_sweep_rows in Hr as (bit & c & l & _ & Hom & ->). simpl.
  apply ote_map_list in Hom. rewrite Hote in Hom.
  apply coil_contexts_head in Hom as (r1 & rung & r2 & E & Hop & Hfirst & Hc);
    [|done].
  split_and!; [done| |by exists st].
  exists r1, rung, r2. split_and!; [done..|].
  rewrite Hc. by destruct c as [[? ?] ?].
Qed.

Lemma first_coil_attribution_witness :
  extract_mappings int64_max ["B[0]"] doc_two_coils = Some out_two_coils
  ∧ Source (row "B[0].5" "" "INT" (ex_ctx "1") "OTE" "") = ""
  ∧ ∃ rungs1 rung rungs2,
      doc_rungs doc_two_coils = rungs1 ++ rung :: rungs2 ∧
      Col45 (row "B[0].5" "" "INT" (ex_ctx "1") "OTE" "")
      ∈ coil_operands rung ∧
      (∀ rung', rung' ∈ rungs1 →
         Col45 (row "B[0].5" "" "INT" (ex_ctx "1") "OTE" "")
         ∉ coil_operands rung') ∧
      rung_ctx rung
      = Some (Program (row "B[0].5" "" "INT" (ex_ctx "1") "OTE" ""),
              Routine (row "B[0].5" "" "INT" (ex_ctx "1") "OTE" ""),
              Rung (row "B[0].5" "" "INT" (ex_ctx "1") "OTE" "")).
Proof.
  split; [by vm_compute|].
  destruct (first_coil_attribution int64_max ["B[0]"] doc_two_coils
              out_two_coils (row "B[0].5" "" "INT" (ex_ctx "1") "OTE" ""))
    as (Hs & Hr & _); [by vm_compute|left|reflexivity|].
  by split.
Defined.

(** ** The order of the table and its duplicates *)

(** C8: the table is sorted in ascending order of the key (base, array
    index or -1, bit index or -1) of the destination, the indices
    compared as numbers; the destinations [X], [X[2]], [X[2].3], [X[10]]
    have strictly growing keys, so that rows with these destinations
    stand in that order in every table. *)
Theorem natural_sort int_max col45 doc out :
  extract_mappings int_max col45 doc = Some out →
  StronglySorted
    (λ r1 r2, frame_leb (frame_key (Col45 r1)) (frame_key (Col45 r2)) = true)
    out
  ∧ frame_key <$> ["X"; "X[2]"; "X[2].3"; "X[10]"]
    = [(Some "X", -1, -1); (Some "X", 2, -1); (Some "X", 2, 3);
       (Some "X", 10, -1)]
  ∧ ∀ i j r1 r2,
      out !! i = Some r1 → out !! j = Some r2 →
      (Col45 r1, Col45 r2)
      ∈ [("X", "X[2]"); ("X", "X[2].3"); ("X", "X[10]");
         ("X[2]", "X[2].3"); ("X[2]", "X[10]"); ("X[2].3", "X[10]")] →
      (i < j)%nat.
Proof.
  intros (st & _ & _ & _ & Hs)%extract_spec.
  split_and!; [done|by vm_compute|].
  intros i j r1 r2 Hi Hj Hd.
  apply (sorted_lookup_lt row_leb out i j r1 r2 row_leb_refl Hs Hi Hj).
  unfold row_leb.
  repeat (apply elem_of_cons in Hd as [[= -> ->]|Hd]; [by vm_compute|]).
  by apply elem_of_nil in Hd.
Qed.

Lemma natural_sort_witness :
  extract_mappings int64_max ["X[2]"; "X[10]"; "X[2].3"; "X"] doc_empty
  = Some out_sorted
  ∧ StronglySorted
      (λ r1 r2, frame_leb (frame_key (Col45 r1)) (frame_key (Col45 r2)) = true)
      out_sorted.
Proof.
  split; [by vm_compute|].
  apply (natural_sort int64_max ["X[2]"; "X[10]"; "X[2].3"; "X"] doc_empty).
  by vm_compute.
Defined.

(** C9: no row stands twice in the table, and the table has the same
    rows as the list of appended rows: rows that differ in any field
    are all kept, also when they have the same destination. *)
Theorem no_duplicate_rows int_max col45 doc out :
  extract_mappings int_max col45 doc = Some out →
  NoDup out
  ∧ ∃ rows, collect (list_to_set col45) doc = Some rows
            ∧ ∀ r, r ∈ out ↔ r ∈ rows.
Proof.
  unfold extract_mappings.
  destruct (collect (list_to_set col45) doc) as [rows|]; simpl; [|done].
  intros (Hn & Hm & _)%consolidate_spec. split; [done|]. by exists rows.
Qed.

Lemma no_duplicate_rows_witness :
  extract_mappings int64_max ["T"] doc_moves = Some out_moves
  ∧ NoDup out_moves
  ∧ ∃ rows, collect (list_to_set ["T"]) doc_moves = Some rows
            ∧ ∀ r, r ∈ out_moves ↔ r ∈ rows.
Proof.
  split; [by vm_compute|].
  apply (no_duplicate_rows int64_max ["T"] doc_moves). by vm_compute.
Defined.

(** ** Bracketed destinations *)






(** ** Splitting a bracketed name *)

Lemma take_drop n s : Str.take n s +:+ Str.drop n s = s.
Proof.
  revert s. induction n as [|n IH]; intros [|c s]; try done.
  simpl. rewrite append_cons. by rewrite IH.
Qed.

Lemma take_app_length s1 s2 : Str.take (String.length s1) (s1 +:+ s2) = s1.
Proof.
  induction s1 as [|c s1 IH]; [by destruct s2|].
  rewrite ?append_cons. simpl. by rewrite IH.
Qed.

Lemma drop_app_le n s1 s2 :
  (n ≤ String.length s1)%nat → Str.drop n (s1 +:+ s2) = Str.drop n s1 +:+ s2.
Proof.
  revert s1. induction n as [|n IH]; intros [|c s1] Hn; simpl in *;
    try done; try lia.
  apply IH. lia.
Qed.

Lemma drop_length s : Str.drop (String.length s) s = EmptyString.
Proof. induction s as [|c s IH]; [done|]. simpl. apply IH. Qed.

Lemma drop_lt_nonempty n s :
  (n < String.length s)%nat → Str.drop n s ≠ EmptyString.
Proof.
  revert s. induction n as [|n IH]; intros [|c s] Hn; simpl in *;
    try done; try lia.
  apply IH. lia.
Qed.

Lemma run_take p n s :
  (n ≤ Str.run p s)%nat → Str.forallb p (Str.take n s) = true.
Proof.
  revert s. induction n as [|n IH]; intros [|c s] Hn; simpl in *; try done.
  destruct (p c); [|lia]. simpl. apply IH. lia.
Qed.

Lemma run_app_ge p s1 s2 :
  Str.forallb p s1 = true → (String.length s1 ≤ Str.run p (s1 +:+ s2))%nat.
Proof.
  induction s1 as [|c s1 IH]; simpl; [lia|].
  intros [Hc Hs]%andb_true_iff. rewrite ?append_cons. simpl. rewrite Hc.
  apply IH in Hs. lia.
Qed.

Lemma run_app_stop p s1 c s2 :
  Str.forallb p s1 = true → p c = false →
  Str.run p (s1 +:+ String c s2) = String.length s1.
Proof.
  intros Hs Hc. induction s1 as [|a s1 IH]; simpl.
  - change (EmptyString +:+ String c s2) with (String c s2). simpl.
    by rewrite Hc.
  - simpl in Hs. apply andb_true_iff in Hs as [Ha Hs].
    rewrite ?append_cons. simpl. rewrite Ha. by rewrite IH.
Qed.

Lemma first_some_seq {B} (f : nat → option B) start len n0 y :
  (start ≤ n0 < start + len)%nat →
  (∀ n, (start ≤ n < n0)%nat → f n = None) →
  f n0 = Some y →
  Re.first_some f (seq start len) = Some y.
Proof.
  revert start. induction len as [|len IH]; intros start Hn Hnone Hy; [lia|].
  simpl. destruct (decide (start = n0)) as [->|Hne]; [by rewrite Hy|].
  rewrite Hnone by lia. apply IH; [lia| |done].
  intros n ?. apply Hnone. lia.
Qed.

Lemma rmatch_chr p k s c rest :
  Re.m_rest s = String c rest → p c = true →
  Re.rmatch (Re.Chr p) k s = k (Re.advance 1 s).
Proof. simpl. intros -> Hc. by rewrite Hc. Qed.

(** A lazy repetition stops at the first count at which the rest of the
    expression matches. *)
Lemma rmatch_rep_lazy p mn k s n0 y :
  (mn ≤ n0 ≤ Str.run p (Re.m_rest s))%nat →
  (∀ n, (mn ≤ n < n0)%nat → k (Re.advance n s) = None) →
  k (Re.advance n0 s) = Some y →
  Re.rmatch (Re.Rep false mn p) k s = Some y.
Proof.
  intros Hn Hnone Hy. simpl.
  apply (first_some_seq _ _ _ n0); [lia|done..].
Qed.

(** A greedy repetition takes the longest run when the rest of the
    expression matches after it. *)
Lemma rmatch_rep_greedy p mn k s y :
  (mn ≤ Str.run p (Re.m_rest s))%nat →
  k (Re.advance (Str.run p (Re.m_rest s)) s) = Some y →
  Re.rmatch (Re.Rep true mn p) k s = Some y.
Proof.
  intros Hn Hy. simpl. set (L := Str.run p (Re.m_rest s)) in *.
  replace (S L - mn)%nat with (S (L - mn)) by lia.
  rewrite seq_S, rev_app_distr. simpl.
  replace (mn + (L - mn))%nat with L by lia. by rewrite Hy.
Qed.

(** What the end of a name must be for [\[\d+\]$] to match there. *)
Lemma bracket_tail_shape X s1 res :
  (∀ s s', Re.path X s s' →
     ∃ j, (1 ≤ j ≤ Str.run Chr.is_digit (Re.m_rest s))%nat ∧
          Re.m_rest s' = Str.drop j (Re.m_rest s)) →
  Re.path (Re.lit "[" ⋅ X ⋅ Re.lit "]" ⋅ Re.Eol) s1 res →
  ∃ ds e, Re.m_rest s1 = String "[" (ds +:+ String "]" e) ∧
          Str.forallb Chr.is_digit ds = true ∧
          (e = EmptyString ∨ e = String Chr.newline EmptyString).
Proof.
  intros HX (s2 & (c & rest & E1 & Hc & ->) & s3 & (j & Hj & E3)%HX
             & s4 & (c' & rest' & E2 & Hc' & ->) & He & ->).
  apply bool_decide_eq_true in Hc as ->, Hc' as ->.
  simpl in E3, Hj, He. rewrite E1 in E3, Hj. simpl in E3, Hj.
  rewrite E2 in E3, He. simpl in He.
  exists (Str.take j rest), rest'. split_and!; [|by apply run_take; lia|done].
  rewrite E1. f_equal. by rewrite E3, take_drop.
Qed.


Lemma grp_digits1_path n s s' :
  Re.path (Re.Grp n Re.digits1) s s' →
  ∃ j, (1 ≤ j ≤ Str.run Chr.is_digit (Re.m_rest s))%nat ∧
       Re.m_rest s' = Str.drop j (Re.m_rest s).
Proof. intros (s1 & (j & Hj & ->) & ->). by exists j. Qed.

(** The index suffix starts at the last opening bracket: nothing that
    stands before [[d]] can start a match of [\[\d+\]$]. *)
Lemma no_bracket_tail x y ds e :
  x ≠ EmptyString → Str.forallb Chr.is_digit ds = true →
  e = EmptyString ∨ e = String Chr.newline EmptyString →
  x +:+ String "[" y ≠ String "[" (ds +:+ String "]" e).
Proof.
  intros Hx Hds He. destruct x as [|c x]; [done|].
  rewrite append_cons. intros [= -> H].
  apply (f_equal (Str.contains "[")) in H.
  rewrite !contains_append, (digits_no_bracket ds Hds) in H. simpl in H.
  rewrite orb_true_r in H. by destruct He as [-> | ->].
Qed.

(** The suffix [[d]] of a name, at the end of the text, matches
    [\[(\d+)\]$] and its group is [d]. *)
Lemma bracket_tail_match s1 d :
  d ≠ EmptyString → Str.forallb Chr.is_digit d = true →
  Re.m_rest s1 = String "[" (d +:+ "]") →
  ∃ res,
    Re.rmatch (Re.lit "[" ⋅ Re.Grp 2 Re.digits1 ⋅ Re.lit "]" ⋅ Re.Eol)
              Some s1 = Some res
    ∧ Re.m_caps res = (2%nat, d) :: Re.m_caps s1.
Proof.
  intros Hne Hd E1. eexists.
  assert (Str.run Chr.is_digit (d +:+ "]") = String.length d) as Hrun
      by (by apply run_app_stop).
  split.
  - cbn [Re.rmatch]. unfold Re.lit at 1.
    erewrite rmatch_chr; [|exact E1|by apply bool_decide_eq_true].
    apply rmatch_rep_greedy.
    + simpl. rewrite E1. simpl. rewrite Hrun. destruct d; [done|simpl; lia].
    + simpl. rewrite E1. simpl. rewrite Hrun.
      rewrite drop_app_le, drop_length by lia. simpl. reflexivity.
  - simpl. rewrite E1. simpl. f_equal. f_equal.
    replace (_ - _)%nat with (String.length d) by lia.
    apply take_app_length.
Qed.

(** X3: round trip: for a non-empty base without a newline and a natural
    index below [10 ^ 4300], the f-string [f"{base}[{i}]"] can be
    written, and [split_index] of it returns, with the base and the
    index from which the name was written; brackets inside the base do
    not matter. (Above that bound the f-string raises.) *)
Theorem split_index_index_name base i :
  base ≠ EmptyString → Str.forallb Re.dot base = true →
  0 <= i < 10 ^ 4300 →
  str_ok i = true
  ∧ split_index_ok (index_name base i) = true
  ∧ split_index (index_name base i) = (base, i).
Proof.
  intros Hbase Hdot Hb. pose proof (str_ok_below i Hb) as Hok.
  destruct Hb as [Hi _]. split; [done|].
  destruct (py_str_digits i Hi) as (Hne & Hd & Hv).
  unfold split_index_ok, split_index, Re.re_match, index_pat, index_name.
  set (t := "[" +:+ py_str i +:+ "]").
  assert (t = String "[" (py_str i +:+ "]")) as Ht by done.
  set (s0 := Re.start None (base +:+ t)).
  set (T := Re.lit "[" ⋅ Re.Grp 2 Re.digits1 ⋅ Re.lit "]" ⋅ Re.Eol).
  set (k := λ s', Re.rmatch T Some (Re.capture 1 s0 s')).
  destruct (bracket_tail_match
              (Re.capture 1 s0 (Re.advance (String.length base) s0))
              (py_str i) Hne Hd) as (res & Hres & Hcaps).
  { simpl. rewrite drop_app_le, drop_length by lia. by rewrite Ht. }
  assert (Re.rmatch (Re.Bol ⋅ Re.Grp 1 (Re.Rep false 1 Re.dot) ⋅ T) Some s0
          = Some res) as ->.
  { change (Re.rmatch (Re.Rep false 1 Re.dot) k s0 = Some res).
    apply (rmatch_rep_lazy _ _ _ _ (String.length base)); [| |exact Hres].
    - split; [destruct base; [done|simpl; lia]|].
      by apply run_app_ge.
    - intros n Hn. unfold k.
      destruct (Re.rmatch T Some _) as [res'|] eqn:E; [|done]. exfalso.
      apply rmatch_path in E as (s' & Hp & _).
      apply bracket_tail_shape in Hp as (ds & e & E & Hds & He);
        [|apply grp_digits1_path].
      simpl in E. rewrite drop_app_le, Ht in E by lia.
      eapply no_bracket_tail; [|exact Hds|exact He|exact E].
      apply drop_lt_nonempty. lia. }
  simpl. rewrite Hcaps. unfold group_ok, group_int. simpl.
  rewrite Nat.sub_0_r, take_app_length. split; [|by rewrite Hv].
  unfold int_ok. rewrite count_all by done.
  unfold str_ok in Hok. by rewrite Z.abs_eq in Hok.
Qed.

Lemma split_index_index_name_witness :
  str_ok 12 = true
  ∧ split_index_ok (index_name "A[1]" 12) = true
  ∧ split_index (index_name "A[1]" 12) = ("A[1]", 12).
Proof.
  apply (split_index_index_name "A[1]" 12); [done|done|].
  split; [done|by vm_compute].
Defined.





(** ** The two sort keys *)

Lemma scan_bol_later r skip c s : Re.scan (Re.Bol ⋅ r) skip (Some c) s = [].
Proof.
  revert skip c. induction s as [|a s IH]; intros skip c;
    destruct skip as [|skip]; simpl; auto.
Qed.

(** For a pattern that starts with [^], [search] is [match]. *)
Lemma search_bol r s : Re.search (Re.Bol ⋅ r) s = Re.re_match (Re.Bol ⋅ r) s.
Proof.
  unfold Re.search, Re.re_match.
  destruct s as [|c s]; cbn [Re.scan].
  - by destruct (Re.rmatch (Re.Bol ⋅ r) Some (Re.start None EmptyString)).
  - destruct (Re.rmatch (Re.Bol ⋅ r) Some (Re.start None (String c s)));
      [done|]. by rewrite scan_bol_later.
Qed.


Lemma first_some_is_Some {A B} (f : A → option B) l x :
  x ∈ l → is_Some (f x) → is_Some (Re.first_some f l).
Proof.
  induction l as [|a l IH]; [by intros ?%elem_of_nil|].
  intros [->|Hin]%elem_of_cons Hx; simpl.
  - destruct Hx as [y ->]. by eexists.
  - destruct (f a); [by eexists|]. by apply IH.
Qed.

Lemma contains_false_forallb c s :
  Str.contains c s = false →
  Str.forallb (λ a, negb (bool_decide (a = c))) s = true.
Proof.
  induction s as [|a s IH]; [done|]. simpl.
  intros [Ha Hs]%orb_false_iff. by rewrite Ha, IH.
Qed.

Lemma run_all p s : Str.forallb p s = true → Str.run p s = String.length s.
Proof.
  induction s as [|c s IH]; [done|]. simpl.
  intros [Hc Hs]%andb_true_iff. by rewrite Hc, IH.
Qed.

(** X6: only a destination with a newline inside has no key: without one,
    the pattern matches and the base is a string. *)
Theorem frame_key_defined tag :
  Str.contains Chr.newline tag = false →
  ∃ b i j, frame_key tag = (Some b, i, j).
Proof.
  intros Hnl. unfold frame_key, _tag_pat. rewrite search_bol.
  assert (is_Some (Re.re_match
            (Re.Bol ⋅ Re.Grp 1 (Re.Rep false 0 Re.dot)
               ⋅ Re.Opt (Re.lit "[" ⋅ Re.Grp 2 Re.digits1 ⋅ Re.lit "]")
               ⋅ Re.Opt (Re.lit "." ⋅ Re.Grp 3 Re.digits1) ⋅ Re.Eol) tag))
    as [m ->]; [|by eexists _, _, _].
  unfold Re.re_match. apply fmap_is_Some. cbn [Re.rmatch Re.start Re.m_prev].
  assert (Str.run Re.dot tag = String.length tag) as Hrun
      by (apply run_all; by apply contains_false_forallb).
  apply (first_some_is_Some _ _ (String.length tag)).
  - cbn [Re.start Re.m_rest]. rewrite Hrun. apply elem_of_seq. lia.
  - simpl. rewrite drop_length. simpl. by eexists.
Qed.

Lemma frame_key_defined_witness :
  Str.contains Chr.newline "X[2].3" = false
  ∧ ∃ b i j, frame_key "X[2].3" = (Some b, i, j).
Proof. split; [done|]. by apply frame_key_defined. Defined.

(** ** The consolidation of a consolidated table *)

Lemma consolidate_is_Some int_max rows :
  is_Some (consolidate int_max rows) ↔ ∀ r, r ∈ rows → fits int_max r = true.
Proof.
  unfold consolidate.
  destruct (forallb (fits int_max) (drop_duplicates rows)) eqn:E.
  - split; [|by eexists]. intros _ r Hr.
    rewrite forallb_forall in E. apply E, list_elem_of_In.
    by apply elem_of_drop_duplicates.
  - split; [by intros [? [=]]|]. intros H.
    assert (forallb (fits int_max) (drop_duplicates rows) = true) as E';
      [|congruence].
    apply forallb_forall. intros r Hr%list_elem_of_In. apply H.
    by apply elem_of_drop_duplicates.
Qed.

Lemma drop_dups_from_NoDup seen rows :
  NoDup rows → (∀ r, r ∈ rows → r ∉ seen) → drop_dups_from seen rows = rows.
Proof.
  intros Hn. revert seen. induction Hn as [|x rows Hx Hn IH]; intros seen Hs;
    [done|].
  simpl. rewrite decide_False by (apply Hs; left). f_equal.
  apply IH. intros r Hr [->|?]%elem_of_cons; [done|].
  by apply (Hs r); [right|].
Qed.

Lemma stable_sort_sorted_id {A} (leb : A → A → bool) l :
  StronglySorted (λ a b, leb a b = true) l → stable_sort leb l = l.
Proof.
  induction 1 as [|x l Hl IH Hx]; [done|].
  change (stable_sort leb (x :: l)) with (insert_sorted leb x (stable_sort leb l)).
  rewrite IH. destruct l as [|y l]; [done|]. simpl.
  by rewrite (Forall_inv Hx).
Qed.

(** X8: consolidating a table again gives the same table. *)
Theorem consolidate_idempotent int_max rows out :
  consolidate int_max rows = Some out → consolidate int_max out = Some out.
Proof.
  intros H. pose proof (consolidate_spec _ _ _ H) as (Hn & Hm & Hs).
  assert (∀ r, r ∈ rows → fits int_max r = true) as Hfits.
  { apply consolidate_is_Some. by eexists. }
  unfold consolidate, drop_duplicates.
  rewrite drop_dups_from_NoDup; [|done|by intros ? _ ?%elem_of_nil].
  rewrite stable_sort_sorted_id by done.
  assert (forallb (fits int_max) out = true) as ->; [|done].
  apply forallb_forall. intros r Hr%list_elem_of_In. apply Hfits. by apply Hm.
Qed.

Lemma consolidate_idempotent_witness :
  consolidate int64_max (out_moves ++ out_moves) = Some out_moves
  ∧ consolidate int64_max out_moves = Some out_moves.
Proof.
  split; [by vm_compute|].
  apply (consolidate_idempotent int64_max (out_moves ++ out_moves)).
  by vm_compute.
Defined.

(** ** Messages and moves *)

(** X9: a message element with a local element and a requested length [n]
    is expanded like a block copy: with the local element split into
    [D[b]] and the remote one into [S[a]] (the index is the one in
    brackets, or the local index where there is none, on both sides),
    the row of every monitored [D[b+k]], [k] in [[0, n)], is in the
    table with source [S[a+k]] and kind MESSAGE. *)
Theorem message_expansion int_max col45 doc out rung ctx mp n li D b S a k :
  extract_mappings int_max col45 doc = Some out →
  rung ∈ doc_rungs doc →
  rung_ctx rung = Some ctx →
  mp ∈ rung_messages rung →
  falsy (LocalElement mp) = false →
  falsy (RequestedLength mp) = false →
  py_int (RequestedLength mp) = Some n →
  py_int (Some (default "0" (LocalIndex mp))) = Some li →
  msg_split (or_empty (LocalElement mp)) li = (D, b) →
  msg_split (or_empty (RemoteElement mp)) li = (S, a) →
  0 <= k < n →
  index_name D (b + k) ∈ col45 →
  row (index_name D (b + k))
      (get_or_empty (base_desc_map (build_index (doc_tags doc))) D)
      (get_or_empty (dtype_map (build_index (doc_tags doc))) D)
      ctx "MESSAGE" (index_name S (a + k)) ∈ out.
Proof.
  intros Hex Hrung Hctx Hmp Hl Hr Hn Hli HD HS Hk Hin.
  eapply rung_row_in_table; [done..|].
  apply elem_of_rung_rows. exists ctx. split; [done|]. do 3 right.
  eexists mp, _. split; [done|]. split.
  - unfold msg_rows. rewrite Hl, Hr, Hn. simpl. simpl in Hli. rewrite Hli.
    simpl. rewrite HD, HS. reflexivity.
  - apply elem_of_expand_rows. exists k. simpl.
    split_and!; [lia|lia|by apply elem_of_tags|done].
Qed.

Lemma message_expansion_witness :
  extract_mappings int64_max ["In[4]"; "In[5]"] doc_msg = Some out_msg
  ∧ row (index_name "In" (4 + 1))
        (get_or_empty (base_desc_map (build_index (doc_tags doc_msg))) "In")
        (get_or_empty (dtype_map (build_index (doc_tags doc_msg))) "In")
        (ex_ctx "9") "MESSAGE" (index_name "N7" (1 + 1)) ∈ out_msg.
Proof.
  split; [by vm_compute|].
  apply (message_expansion int64_max ["In[4]"; "In[5]"] doc_msg out_msg
           _ (ex_ctx "9")
           (ex_msg (Some "In[4]") (Some "2") (Some "1") (Some "N7"))
           2 1 "In" 4 "N7" 1 1
           ltac:(by vm_compute) ltac:(left) ltac:(reflexivity) ltac:(left)
           ltac:(reflexivity) ltac:(reflexivity) ltac:(by vm_compute)
           ltac:(by vm_compute) ltac:(by vm_compute) ltac:(by vm_compute)
           ltac:(lia)).
  vm_compute. right; left.
Defined.

(** X10: a move is not expanded: when its destination operand is a monitored
    tag as written, the table has one row for it, with the source
    operand as written; when it is not, the move appends nothing. *)
Theorem move_verbatim int_max col45 doc out rung ctx m :
  extract_mappings int_max col45 doc = Some out →
  rung ∈ doc_rungs doc →
  rung_ctx rung = Some ctx →
  m ∈ Re.matches mov_re (rung_txt rung) →
  let ix := build_index (doc_tags doc) in
  let r := row (Re.grp 2 m)
               (get_or_empty (base_desc_map ix) (split_index (Re.grp 2 m)).1)
               (get_or_empty (dtype_map ix) (split_index (Re.grp 2 m)).1)
               ctx "MOV" (Re.grp 1 m) in
  (Re.grp 2 m ∈ col45 → r ∈ out)
  ∧ (∀ st, records (mov_step ix (list_to_set col45) ctx st m)
           = records st ++ (if decide (Re.grp 2 m ∈ col45) then [r] else [])).
Proof.
  intros Hex Hrung Hctx Hm ix r. split.
  - intros Hin. eapply rung_row_in_table; [done..|].
    apply elem_of_rung_rows. exists ctx. split; [done|]. right; left.
    exists m. split; [done|]. unfold mov_rows.
    rewrite decide_True by (by apply elem_of_tags). left.
  - intros st. rewrite mov_step_rows. simpl. f_equal. unfold mov_rows.
    destruct (decide (Re.grp 2 m ∈ col45)) as [Hin|Hin].
    + by rewrite decide_True by (by apply elem_of_tags).
    + rewrite decide_False; [done|]. by rewrite elem_of_tags.
Qed.

Lemma move_verbatim_witness :
  extract_mappings int64_max ["T"] doc_moves = Some out_moves
  ∧ row (Re.grp 2 [(2, "T"); (1, "A")]%nat)
        (get_or_empty (base_desc_map (build_index (doc_tags doc_moves)))
           (split_index (Re.grp 2 [(2, "T"); (1, "A")]%nat)).1)
        (get_or_empty (dtype_map (build_index (doc_tags doc_moves)))
           (split_index (Re.grp 2 [(2, "T"); (1, "A")]%nat)).1)
        (ex_ctx "0") "MOV" (Re.grp 1 [(2, "T"); (1, "A")]%nat) ∈ out_moves.
Proof.
  split; [by vm_compute|].
  apply (proj1 (move_verbatim int64_max ["T"] doc_moves out_moves
                  (ex_rung "0" "MOV(A,T);") (ex_ctx "0")
                  [(2, "T"); (1, "A")]%nat
                  ltac:(by vm_compute) ltac:(left) ltac:(reflexivity)
                  ltac:(vm_compute; left))).
  vm_compute. left.
Defined.

(** ** Comments, bit rows and "Not Found" rows *)

Lemma ote_step_comments ctx st m :
  bit_comments (ote_step ctx st m) = bit_comments st.
Proof. unfold ote_step. by destruct (Str.truthy _). Qed.

Lemma comment_step_keeps st e operand text :
  bit_comments st !! operand = Some text →
  bit_comments (comment_step st e) !! operand = Some text.
Proof.
  intros H. unfold comment_step. destruct (negb _); [done|].
  destruct (op_Comment e) as [com|]; [|done].
  destruct (Str.truthy (text_of com)); simpl; [|done].
  destruct (bool_decide _) eqn:E; simpl; [|done].
  apply bool_decide_eq_true in E.
  rewrite lookup_insert_ne; [done|]. intros Heq. rewrite Heq in E. congruence.
Qed.

Lemma scan_rung_keeps_comments ix tags st rung st' operand text :
  scan_rung ix tags st rung = Some st' →
  bit_comments st !! operand = Some text →
  bit_comments st' !! operand = Some text.
Proof.
  unfold scan_rung.
  destruct (rung_context rung) as [[prog_name rout_name]|]; simpl; [|done].
  set (ctx := (prog_name, rout_name, rung_Number rung)).
  rewrite (foldl_emit_all _ _ _ _ (cop_step_rows ix tags ctx)).
  rewrite (foldl_emit_all _ _ _ _ (mov_step_rows ix tags ctx)).
  rewrite (foldl_emit_all _ _ _ _ (ffl_step_rows ix tags ctx)).
  intros H Hc.
  apply (foldl_opt_emit_all _ (msg_rows ix tags ctx)) in H;
    [|intros; apply msg_step_rows].
  subst st'. simpl.
  apply (foldl_inv (λ s, bit_comments s !! operand = Some text)).
  - apply (foldl_inv (λ s, bit_comments s !! operand = Some text)); [done|].
    intros s m _ Hs. by rewrite ote_step_comments.
  - intros s e _ Hs. by apply comment_step_keeps.
Qed.

(** A comment of the tag declarations is never replaced during the
    scan: the rungs only add comments for operands that have none. *)
Lemma scan_keeps_comments ix tags rungs st operand text :
  scan_rungs ix tags rungs = Some st →
  bit_comment_map ix !! operand = Some text →
  bit_comments st !! operand = Some text.
Proof.
  intros H Hc. unfold scan_rungs in H.
  apply (foldl_opt_inv (λ s, bit_comments s !! operand = Some text)
           _ _ _ _ Hc) in H; [done|].
  intros s rung s' _ Hs E. by eapply scan_rung_keeps_comments.
Qed.

(** X11: the description of a bit row is the comment that the tag
    declarations give for its operand, when they give one: a comment on
    a rung never takes its place. *)
Theorem declared_comment_wins int_max col45 doc out r text :
  extract_mappings int_max col45 doc = Some out →
  r ∈ out →
  Instruction r = "OTE" →
  bit_comment_map (build_index (doc_tags doc)) !! Col45 r = Some text →
  Description r = text.
Proof.
  intros (st & Hst & Hrows & _)%extract_spec Hin Hi Hc. simpl in Hst, Hrows.
  apply Hrows in Hin.
  destruct (ote_row_inv _ _ _ _ _ Hin Hi) as (orig & _ & _ & Hr).
  apply elem_of_sweep_rows in Hr as (bit & c & l & _ & _ & ->).
  simpl in *. by rewrite (scan_keeps_comments _ _ _ _ _ _ Hst Hc).
Qed.

Lemma declared_comment_wins_witness :
  extract_mappings int64_max ["B[0]"] doc_comments = Some out_comments
  ∧ Description (row "B[0].5" "Pump running" "INT" (ex_ctx "0") "OTE" "")
    = "Pump running".
Proof.
  split; [by vm_compute|].
  apply (declared_comment_wins int64_max ["B[0]"] doc_comments out_comments);
    [by vm_compute|left|reflexivity|by vm_compute].
Defined.

(** X12: a bit row belongs to a monitored tag that the scan left unmatched
    and whose declared type is INT or DINT; its type column is that
    type, and its bit is at most 15 for an INT and 31 for a DINT. *)
Theorem bit_rows_typed int_max col45 doc out r :
  extract_mappings int_max col45 doc = Some out →
  r ∈ out →
  Instruction r = "OTE" →
  ∃ tag bit,
    tag ∈ col45 ∧
    Col45 r = bit_name (split_index tag).1 (split_index tag).2 bit ∧
    DataType r = get_or_empty (dtype_map (build_index (doc_tags doc)))
                              (split_index tag).1 ∧
    (DataType r = "INT" ∧ 0 <= bit <= 15 ∨ DataType r = "DINT" ∧ 0 <= bit <= 31)
    ∧ ∀ r', r' ∈ out → Col45 r' = tag → Instruction r' = "OTE".
Proof.
  intros (st & Hst & Hrows & _)%extract_spec Hin Hi. simpl in Hst, Hrows.
  destruct (scan_rungs_spec _ _ _ _ Hst) as (_ & Hrec & Hfound & _).
  apply Hrows in Hin.
  destruct (ote_row_inv _ _ _ _ _ Hin Hi) as (orig & Ho & Hnf & Hr).
  pose proof Hr as Hr'.
  apply elem_of_sweep_rows in Hr as (bit & c & l & Hb & _ & ->).
  exists orig, bit. simpl. split_and!; [by apply elem_of_tags|done..|].
  intros r' [(rung & Hrung & Hr1)|[(orig' & _ & _ & Hr1)
            |(tag' & _ & _ & Hnil & ->)]]%Hrows Hc.
  - exfalso. apply Hnf. rewrite Hfound, Hrec.
    apply elem_of_list_to_set, list_elem_of_fmap. exists r'.
    split; [done|]. apply list_elem_of_bind. by exists rung.
  - by apply elem_of_sweep_rows in Hr1 as (bit' & c' & l' & _ & _ & ->).
  - simpl in Hc. subst tag'. rewrite Hnil in Hr'. by apply elem_of_nil in Hr'.
Qed.

Lemma bit_rows_typed_witness :
  extract_mappings int64_max ["B[0]"] doc_two_coils = Some out_two_coils
  ∧ ∃ tag bit,
      tag ∈ ["B[0]"] ∧
      Col45 (row "B[0].5" "" "INT" (ex_ctx "1") "OTE" "")
      = bit_name (split_index tag).1 (split_index tag).2 bit ∧
      DataType (row "B[0].5" "" "INT" (ex_ctx "1") "OTE" "")
      = get_or_empty (dtype_map (build_index (doc_tags doc_two_coils)))
                     (split_index tag).1 ∧
      (DataType (row "B[0].5" "" "INT" (ex_ctx "1") "OTE" "") = "INT"
       ∧ 0 <= bit <= 15
       ∨ DataType (row "B[0].5" "" "INT" (ex_ctx "1") "OTE" "") = "DINT"
         ∧ 0 <= bit <= 31)
      ∧ ∀ r', r' ∈ out_two_coils → Col45 r' = tag → Instruction r' = "OTE".
Proof.
  split; [by vm_compute|].
  apply (bit_rows_typed int64_max ["B[0]"] doc_two_coils out_two_coils);
    [by vm_compute|left|reflexivity].
Defined.

(** X13: a "Not Found" row is the row of a monitored tag, with empty
    program, routine, rung and source; a tag has at most one, and has
    none beside a row of the scan: every other row with that destination
    is a bit row. *)
Theorem not_found_rows int_max col45 doc out r :
  extract_mappings int_max col45 doc = Some out →
  r ∈ out →
  Instruction r = "Not Found" →
  Col45 r ∈ col45
  ∧ Program r = Some "" ∧ Routine r = Some "" ∧ Rung r = Some ""
  ∧ Source r = ""
  ∧ ∀ r', r' ∈ out → Col45 r' = Col45 r → r' = r ∨ Instruction r' = "OTE".
Proof.
  intros (st & Hst & Hrows & _)%extract_spec Hin Hi. simpl in Hst, Hrows.
  destruct (scan_rungs_spec _ _ _ _ Hst) as (_ & Hrec & Hfound & _).
  apply Hrows in Hin as [(rung & _ & Hr)|[(orig & _ & _ & Hr)
                        |(tag & Ht & Hnf & _ & ->)]].
  - apply rung_row_not_ote in Hr as [_ ?]. done.
  - apply elem_of_sweep_rows in Hr as (bit & c & l & _ & _ & ->). done.
  - simpl. split_and!; [by apply elem_of_tags|done..|].
    intros r' [(rung & Hrung & Hr1)|[(orig' & _ & _ & Hr1)
              |(tag' & _ & _ & _ & ->)]]%Hrows Hc.
    + exfalso. apply Hnf. rewrite Hfound, Hrec.
      apply elem_of_list_to_set, list_elem_of_fmap. exists r'.
      split; [done|]. apply list_elem_of_bind. by exists rung.
    + right. by apply elem_of_sweep_rows in Hr1 as (bit' & c' & l' & _ & _ & ->).
    + left. simpl in Hc. by subst.
Qed.

Lemma not_found_rows_witness :
  extract_mappings int64_max ["X[2]"; "X[10]"; "X[2].3"; "X"] doc_empty
  = Some out_sorted
  ∧ Col45 (row "X" "" "" (Some "", Some "", Some "") "Not Found" "")
    ∈ ["X[2]"; "X[10]"; "X[2].3"; "X"].
Proof.
  split; [by vm_compute|].
  apply (not_found_rows int64_max ["X[2]"; "X[10]"; "X[2].3"; "X"] doc_empty
           out_sorted); [by vm_compute|left|reflexivity].
Defined.

(** ** The operands of the coils *)

Lemma take_nonempty n s :
  (1 ≤ n)%nat → s ≠ EmptyString → Str.take n s ≠ EmptyString.
Proof. destruct n, s; simpl; intros; try done; lia. Qed.

Lemma run_pos_nonempty p s : (1 ≤ Str.run p s)%nat → s ≠ EmptyString.
Proof. destruct s; simpl; [lia|done]. Qed.

(** The operand that an OTE match captures is not empty and has no
    white space. *)
Lemma ote_operand_shape txt m :
  m ∈ Re.matches ote_text_re txt →
  Re.grp 1 m ≠ EmptyString ∧
  Str.forallb (λ c, negb (Chr.is_space c)) (Re.grp 1 m) = true.
Proof.
  intros (prev & s0 & s' & Hp & ->)%matches_path.
  unfold ote_text_re in Hp.
  apply path_seq in Hp as (s1 & _ & Hp).
  apply path_seq in Hp as (s2 & _ & Hp).
  apply path_seq in Hp as (s3 & _ & Hp).
  apply path_seq in Hp as (s4 & _ & Hp).
  apply path_seq in Hp as (s5 & _ & Hp).
  apply path_seq in Hp as (s6 & (s7 & (n & Hn & ->) & ->)%path_grp & Hrest).
  apply path_group_other with (n := 1%nat) in Hrest; [|done].
  unfold Re.grp. rewrite Hrest. simpl.
  replace (Re.m_pos s5 + n - Re.m_pos s5)%nat with n by lia.
  split.
  - apply take_nonempty; [lia|]. eapply run_pos_nonempty.
    etrans; [apply (proj1 Hn)|apply (proj2 Hn)].
  - eapply forallb_impl; [|apply run_take; apply Hn].
    intros c Hc. simpl in Hc. by destruct (Chr.is_space c).
Qed.

Lemma filter_fmap_all {A B} (P : B → Prop) `{∀ x, Decision (P x)}
  (f g : A → B) (l : list A) :
  (∀ x, x ∈ l → f x = g x ∧ P (g x)) → filter P (f <$> l) = g <$> l.
Proof.
  induction l as [|x l IH]; intros Hl; [done|].
  rewrite !fmap_cons, filter_cons.
  destruct (Hl x) as [-> HP]; [left|].
  rewrite decide_True by done. f_equal. apply IH. intros y Hy. apply Hl. by right.
Qed.

(** X14: every OTE of the text of a rung is recorded, under the operand as
    it is written: stripping it changes nothing and it is never empty. *)
Theorem coil_operands_all rung :
  coil_operands rung = Re.grp 1 <$> Re.matches ote_text_re (rung_txt rung).
Proof.
  unfold coil_operands. apply filter_fmap_all. intros m Hm.
  destruct (ote_operand_shape _ _ Hm) as [Hne Hsp].
  rewrite strip_no_space by done. split; [done|].
  by destruct (Re.grp 1 m).
Qed.

(** ** The declared types *)

Lemma upper_idemp c : Chr.upper (Chr.upper c) = Chr.upper c.
Proof. by destruct c as [[] [] [] [] [] [] [] []]. Qed.

Lemma str_upper_idemp s : Str.upper (Str.upper s) = Str.upper s.
Proof.
  induction s as [|c s IH]; [done|].
  unfold Str.upper in *. simpl. by rewrite upper_idemp, IH.
Qed.

Lemma index_tag_dtype ix t name :
  dtype_map (index_tag ix t) !! name =
  match tag_Name t with
  | Some base_name =>
      if Str.truthy base_name
         && Str.truthy (Str.upper (or_empty (tag_DataType t)))
         && bool_decide (base_name = name)
      then Some (Str.upper (or_empty (tag_DataType t)))
      else dtype_map ix !! name
  | None => dtype_map ix !! name
  end.
Proof.
  unfold index_tag. destruct (tag_Name t) as [base_name|]; [|done].
  destruct (Str.truthy base_name); simpl; [|done].
  destruct (Str.truthy (Str.upper _)); simpl; [|done].
  destruct (decide (base_name = name)) as [->|Hne].
  - by rewrite bool_decide_eq_true_2, lookup_insert_eq.
  - by rewrite bool_decide_eq_false_2, lookup_insert_ne.
Qed.

(** X15: the type recorded for a name is the data type, in upper case, of
    the last tag of that name that has one. *)
Theorem dtype_last_wins tags1 t tags2 name :
  tag_Name t = Some name →
  name ≠ EmptyString →
  or_empty (tag_DataType t) ≠ EmptyString →
  (∀ t', t' ∈ tags2 → tag_Name t' = Some name →
         or_empty (tag_DataType t') = EmptyString) →
  dtype_map (build_index (tags1 ++ t :: tags2)) !! name
  = Some (Str.upper (or_empty (tag_DataType t))).
Proof.
  intros Hname Hne Hdt Hlater. unfold build_index.
  rewrite foldl_app. simpl.
  apply (foldl_inv (λ ix, dtype_map ix !! name
                          = Some (Str.upper (or_empty (tag_DataType t))))).
  - rewrite index_tag_dtype, Hname.
    assert (Str.truthy name = true) as -> by (by destruct name).
    assert (Str.truthy (Str.upper (or_empty (tag_DataType t))) = true) as ->
        by (by destruct (or_empty (tag_DataType t))).
    by rewrite bool_decide_eq_true_2.
  - intros ix t' Ht' IH. rewrite index_tag_dtype.
    destruct (tag_Name t') as [n'|] eqn:En; [|done].
    destruct (decide (n' = name)) as [->|Hneq].
    + rewrite (Hlater t' Ht' En). simpl. by rewrite andb_false_r.
    + by rewrite (bool_decide_eq_false_2 _ Hneq), andb_false_r.
Qed.

Lemma dtype_last_wins_witness :
  dtype_map (build_index ([ex_tag "B" "int" None] ++ ex_tag "B" "Dint" None
                          :: [ex_tag "C" "REAL" None])) !! "B"
  = Some (Str.upper (or_empty (tag_DataType (ex_tag "B" "Dint" None)))).
Proof.
  apply dtype_last_wins; [done..|].
  intros t' ->%list_elem_of_singleton [=].
Defined.

(** * ParseMainTopicFromTags: the filter that writes the tag export
    [main] keeps the rows of the CSV export whose second cell is
    ["Main"], pads them to one length and names the columns [Col1],
    [Col2], ...; the column [Col45] of its output is the one that
    [extract_mappings] reads. A CSV row is a list of cells; [None] is
    [sys.exit] on an empty selection. *)

Lemma max_cols_ge rows r :
  r ∈ rows → (length r ≤ MainFilter.max_cols rows)%nat.
Proof.
  unfold MainFilter.max_cols.
  induction rows as [|x rows IH]; [by intros ?%elem_of_nil|].
  intros [->|Hin]%elem_of_cons; simpl; [apply Nat.le_max_l|].
  etrans; [by apply IH|apply Nat.le_max_r].
Qed.

Lemma max_cols_attained rows :
  rows ≠ [] → ∃ r, r ∈ rows ∧ length r = MainFilter.max_cols rows.
Proof.
  induction rows as [|x rows IH]; [done|]. intros _.
  change (MainFilter.max_cols (x :: rows))
    with (Nat.max (length x) (MainFilter.max_cols rows)).
  destruct (decide (rows = [])) as [->|Hne].
  - exists x. split; [left|]. change (MainFilter.max_cols []) with 0%nat.
    by rewrite Nat.max_0_r.
  - destruct (IH Hne) as (r & Hr & E).
    destruct (Nat.max_dec (length x) (MainFilter.max_cols rows)) as [H|H];
      rewrite H.
    + exists x. split; [left|done].
    + exists r. split; [by right|done].
Qed.

(** X16: the frame is rectangular: every row has as many cells as there are
    columns; it is a selected row of the input, in the input's order,
    with its cells kept and empty cells added at the end; its second
    cell is ["Main"]. *)
Theorem main_frame rows cols table :
  MainFilter.main rows = Some (cols, table) →
  table = MainFilter.pad (length cols)
            <$> filter (λ r, MainFilter.keep r = true) rows
  ∧ ∀ p, p ∈ table →
      length p = length cols ∧ p !! 1%nat = Some "Main" ∧
      ∃ r, r ∈ rows ∧ MainFilter.keep r = true ∧
           (length r ≤ length cols)%nat ∧
           p = r ++ replicate (length cols - length r) EmptyString.
Proof.
  unfold MainFilter.main.
  destruct (filter (λ r, MainFilter.keep r = true) rows) as [|m ms] eqn:E;
    [done|]. rewrite <- E. intros [= <- <-].
  rewrite length_fmap, length_seq. split; [done|].
  intros p (r & -> & Hr)%list_elem_of_fmap.
  pose proof (max_cols_ge _ _ Hr) as Hle.
  apply list_elem_of_filter in Hr as [Hk Hin].
  split_and!.
  - unfold MainFilter.pad. rewrite length_app, length_replicate. lia.
  - unfold MainFilter.pad.
    destruct r as [|a [|b r]]; simpl in Hk; try done;
      destruct (Str.startswith ":" a); try done.
    apply bool_decide_eq_true in Hk as ->. done.
  - exists r. by split_and!.
Qed.

Lemma main_frame_witness :
  MainFilter.main csv_example
  = Some (["Col1"; "Col2"; "Col3"],
          [["Tag1"; "Main"; "x"]; ["Tag3"; "Main"; ""]])
  ∧ [["Tag1"; "Main"; "x"]; ["Tag3"; "Main"; ""]]
    = MainFilter.pad (length ["Col1"; "Col2"; "Col3"])
        <$> filter (λ r, MainFilter.keep r = true) csv_example.
Proof.
  split; [by vm_compute|].
  apply (main_frame csv_example ["Col1"; "Col2"; "Col3"]). by vm_compute.
Defined.

Lemma col_name_inj i j : MainFilter.col_name i = MainFilter.col_name j → i = j.
Proof.
  unfold MainFilter.col_name. intros H%(inj (String.app "Col")).
  destruct (py_str_digits (Z.of_nat i + 1)) as (_ & _ & Hi); [lia|].
  destruct (py_str_digits (Z.of_nat j + 1)) as (_ & _ & Hj); [lia|].
  rewrite H, Hj in Hi. lia.
Qed.

(** X17: the frame has the column [Col45], which [extract_mappings]
    requires, exactly when a selected row has at least 45 cells. *)
Theorem main_has_col45 rows cols table :
  MainFilter.main rows = Some (cols, table) →
  "Col45" ∈ cols ↔
  ∃ r, r ∈ rows ∧ MainFilter.keep r = true ∧ (45 ≤ length r)%nat.
Proof.
  unfold MainFilter.main.
  destruct (filter (λ r, MainFilter.keep r = true) rows) as [|m ms] eqn:E;
    [done|]. rewrite <- E.
  assert (filter (λ r, MainFilter.keep r = true) rows ≠ []) as Hne
      by (by rewrite E).
  intros [= <- <-]. rewrite list_elem_of_fmap. split.
  - intros (i & Hi & Hin%elem_of_seq).
    change "Col45" with (MainFilter.col_name 44) in Hi.
    apply col_name_inj in Hi as <-.
    destruct (max_cols_attained _ Hne) as (r & [Hk Hr]%list_elem_of_filter & El).
    exists r. split_and!; [done..|lia].
  - intros (r & Hr & Hk & Hlen). exists 44%nat. split; [done|].
    apply elem_of_seq.
    assert (r ∈ filter (λ r, MainFilter.keep r = true) rows) as Hf
        by (by apply list_elem_of_filter).
    apply max_cols_ge in Hf. lia.
Qed.

Lemma main_has_col45_witness :
  MainFilter.main csv_example
  = Some (["Col1"; "Col2"; "Col3"],
          [["Tag1"; "Main"; "x"]; ["Tag3"; "Main"; ""]])
  ∧ ("Col45" ∈ ["Col1"; "Col2"; "Col3"] ↔
     ∃ r, r ∈ csv_example ∧ MainFilter.keep r = true ∧ (45 ≤ length r)%nat).
Proof.
  split; [by vm_compute|].
  apply (main_has_col45 csv_example ["Col1"; "Col2"; "Col3"]
           [["Tag1"; "Main"; "x"]; ["Tag3"; "Main"; ""]]).
  by vm_compute.
Defined.

(** ** The kinds and the places of the rows *)

Lemma rung_row_ctx ix tags rung r :
  r ∈ rung_rows ix tags rung →
  rung_ctx rung = Some (Program r, Routine r, Rung r).
Proof.
  intros (ctx & Hctx & H)%elem_of_rung_rows. rewrite Hctx.
  destruct ctx as [[prog_name rout_name] rung_num].
  destruct H as [(m & _ & Hr)|[(m & _ & Hr)|[(m & _ & Hr)
                |(mp & rows & _ & Hrows & Hr)]]].
  - unfold cop_rows in Hr.
    by apply elem_of_expand_rows in Hr as (k & _ & _ & ->).
  - unfold mov_rows in Hr. destruct (decide _); [|by apply elem_of_nil in Hr].
    by apply list_elem_of_singleton in Hr as ->.
  - unfold ffl_rows in Hr.
    destruct (control_len_map ix !! _); [|by apply elem_of_nil in Hr].
    by apply elem_of_expand_rows in Hr as (k & _ & _ & ->).
  - unfold msg_rows in Hrows. destruct (falsy _ || falsy _).
    { injection Hrows as <-. by apply elem_of_nil in Hr. }
    destruct (py_int (RequestedLength mp)); simpl in Hrows; [|done].
    destruct (py_int_str _); simpl in Hrows; [|done].
    injection Hrows as <-.
    by apply elem_of_expand_rows in Hr as (k & _ & _ & ->).
Qed.

(** X18: the kind of every row of the table is one of COP, CPS, MOV,
    FFL, MESSAGE, OTE and "Not Found": the name of a block copy is
    written in upper case however the rung spells it. *)
Theorem instruction_kinds int_max col45 doc out r :
  extract_mappings int_max col45 doc = Some out →
  r ∈ out →
  Instruction r
  ∈ ["COP"; "CPS"; "MOV"; "FFL"; "MESSAGE"; "OTE"; "Not Found"].
Proof.
  intros (st & _ & Hrows & _)%extract_spec Hin. simpl in Hrows.
  apply Hrows in Hin as [(rung & _ & Hr)|[(orig & _ & _ & Hr)
                        |(tag & _ & _ & _ & ->)]].
  - apply rung_row_kind in Hr as [_ [[-> _]|[[->|[->|[->| ->]]] _]]];
      repeat first [by left|right].
  - apply elem_of_sweep_rows in Hr as (bit & c & l & _ & _ & ->). simpl.
    repeat first [by left|right].
  - simpl. repeat first [by left|right].
Qed.

Lemma instruction_kinds_witness :
  extract_mappings int64_max ["Y[0]"] doc_lower
  = Some [row "Y[0]" "" "" (ex_ctx "5") "CPS" "Z[5]"]
  ∧ Instruction (row "Y[0]" "" "" (ex_ctx "5") "CPS" "Z[5]")
    ∈ ["COP"; "CPS"; "MOV"; "FFL"; "MESSAGE"; "OTE"; "Not Found"].
Proof.
  split; [by vm_compute|].
  apply (instruction_kinds int64_max ["Y[0]"] doc_lower
           [row "Y[0]" "" "" (ex_ctx "5") "CPS" "Z[5]"]);
    [by vm_compute|left].
Defined.

(** X19: the program, the routine and the rung of every row other than
    a "Not Found" row are those of a rung of the document, on which the
    instruction of the row stands. *)
Theorem row_context int_max col45 doc out r :
  extract_mappings int_max col45 doc = Some out →
  r ∈ out →
  Instruction r ≠ "Not Found" →
  ∃ rung, rung ∈ doc_rungs doc ∧
          rung_ctx rung = Some (Program r, Routine r, Rung r) ∧
          (Instruction r = "OTE" → Col45 r ∈ coil_operands rung).
Proof.
  intros (st & Hst & Hrows & _)%extract_spec Hin Hi. simpl in Hst, Hrows.
  destruct (scan_rungs_spec _ _ _ _ Hst) as (HF & _ & _ & Hote).
  apply Hrows in Hin as [(rung & Hrung & Hr)|[(orig & _ & _ & Hr)
                        |(tag & _ & _ & _ & ->)]]; [| |done].
  - exists rung. split_and!; [done|by eapply rung_row_ctx|].
    intros Ho. by apply rung_row_not_ote in Hr as [? _].
  - apply elem_of_sweep_rows in Hr as (bit & c & l & _ & Hom & ->).
    apply ote_map_list in Hom. rewrite Hote in Hom.
    apply coil_contexts_head in Hom as (r1 & rung & r2 & E & Hop & _ & Hc);
      [|done].
    exists rung. split_and!; [|by rewrite Hc; destruct c as [[? ?] ?]|done].
    rewrite E. apply elem_of_app. right. left.
Qed.

Lemma row_context_witness :
  extract_mappings int64_max ["T"] doc_moves = Some out_moves
  ∧ ∃ rung, rung ∈ doc_rungs doc_moves ∧
      rung_ctx rung
      = Some (Program (row "T" "" "" (ex_ctx "1") "MOV" "B"),
              Routine (row "T" "" "" (ex_ctx "1") "MOV" "B"),
              Rung (row "T" "" "" (ex_ctx "1") "MOV" "B")) ∧
      (Instruction (row "T" "" "" (ex_ctx "1") "MOV" "B") = "OTE" →
       Col45 (row "T" "" "" (ex_ctx "1") "MOV" "B") ∈ coil_operands rung).
Proof.
  split; [by vm_compute|].
  apply (row_context int64_max ["T"] doc_moves out_moves);
    [by vm_compute|right; left|done].
Defined.
